(** * Kinetic text engine: TextScramble and WordRotator

    A shallow embedding of the text-scramble effect and the word rotator
    of the kinetic typography module (the module importing gsap, with
    [splitText], [TextScramble], [WordRotator] and [initKineticText]).

    Conventions of the embedding:
    - a JS string is its list of UTF-16 code units ([jsstr], a [list N]);
      [s[i]] is [nth_error], [undefined] is [None];
    - [Math.random()] is a stream of rationals, one consumed per call
      (the host guarantees [0 <= r < 1]); [Math.floor] is [Qfloor];
    - the element content is the list of pieces the last update wrote:
      a plain text run, or a [scramble-char] span around one glyph;
      [textContent] concatenates their texts, [innerHTML] serialises them;
    - the host (animation frames, timers, promise jobs) is part of the
      world: pending frame callbacks, pending timers, fulfilled promises,
      their pending continuations and the queued microtasks;
    - [w_log] records the observable effects: the start of a transition
      (a call of [setText], with the promise it creates), each call of a
      promise's [resolve], each run of a rotator continuation and each
      write of [currentIndex]. *)

From Stdlib Require Import ZArith QArith Qround List Lia Arith Bool Ascii.
From Stdlib Require String DecimalNat.
Import String.StringSyntax.
Import ListNotations.
Open Scope Z_scope.

(** ** Data model *)

Definition jsstr := list N.

Definition js (s : String.string) : jsstr := map N_of_ascii (String.list_ascii_of_string s).
Arguments js s%_string_scope.

(** A task of the scramble queue, [{ from, to, start, end, char }]. *)
Record task := mk_task {
  t_from : jsstr;
  t_to : jsstr;
  t_start : Z;
  t_end : Z;
  t_char : option N   (* [char], [undefined] until first drawn *)
}.

(** What one position contributes to [output]: its text, or
    [<span class="scramble-char">${char}</span>]. *)
Inductive piece :=
| PText (s : jsstr)
| PScr (c : option N).

(** The fields of a [TextScramble] instance. *)
Record scrambler := mk_scr {
  ts_el : list piece;              (* the content of [this.el] *)
  ts_frameRequest : option nat;    (* [this.frameRequest], [null] = None *)
  ts_frame : Z;                    (* [this.frame] *)
  ts_queue : list task;            (* [this.queue] *)
  ts_resolve : option nat          (* [this.resolve]: the promise it settles *)
}.

(** The fields of a [WordRotator] instance. *)
Record rotator := mk_rot {
  r_words : list jsstr;
  r_currentIndex : nat;
  r_interval : Z;                  (* [this.options.interval] *)
  r_timeoutId : option nat         (* [this.timeoutId] *)
}.

Inductive effect :=
| EBegin (p : nat) (s : jsstr)     (* setText(s) started, returning promise p *)
| EResolve (p : nat)               (* the resolve function of p was called *)
| EThen (p : nat)                  (* the rotator's continuation of p ran *)
| EIndex (n : nat).                (* [this.currentIndex = n] *)

Definition stream := nat -> Q.
Definition shift (s : stream) : stream := fun n => s (S n).

Record world := mk_world {
  w_ts : scrambler;
  w_rot : option rotator;
  w_rng : stream;                  (* the values Math.random() will return *)
  w_raf : list nat;                (* requested animation-frame callbacks *)
  w_timers : list nat;             (* pending setTimeout callbacks *)
  w_next : nat;                    (* next fresh handle / promise id *)
  w_fulfilled : list nat;          (* fulfilled promises *)
  w_thens : list nat;              (* promises with a pending rotator continuation *)
  w_micro : list nat;              (* queued continuation jobs *)
  w_log : list effect
}.

Definition set_ts (f : scrambler -> scrambler) (w : world) : world :=
  mk_world (f (w_ts w)) (w_rot w) (w_rng w) (w_raf w) (w_timers w) (w_next w)
    (w_fulfilled w) (w_thens w) (w_micro w) (w_log w).
Definition set_rot (r : option rotator) (w : world) : world :=
  mk_world (w_ts w) r (w_rng w) (w_raf w) (w_timers w) (w_next w)
    (w_fulfilled w) (w_thens w) (w_micro w) (w_log w).
Definition set_rng (s : stream) (w : world) : world :=
  mk_world (w_ts w) (w_rot w) s (w_raf w) (w_timers w) (w_next w)
    (w_fulfilled w) (w_thens w) (w_micro w) (w_log w).
Definition set_raf (l : list nat) (w : world) : world :=
  mk_world (w_ts w) (w_rot w) (w_rng w) l (w_timers w) (w_next w)
    (w_fulfilled w) (w_thens w) (w_micro w) (w_log w).
Definition set_timers (l : list nat) (w : world) : world :=
  mk_world (w_ts w) (w_rot w) (w_rng w) (w_raf w) l (w_next w)
    (w_fulfilled w) (w_thens w) (w_micro w) (w_log w).
Definition set_next (n : nat) (w : world) : world :=
  mk_world (w_ts w) (w_rot w) (w_rng w) (w_raf w) (w_timers w) n
    (w_fulfilled w) (w_thens w) (w_micro w) (w_log w).
Definition set_promises (ful thens micro : list nat) (w : world) : world :=
  mk_world (w_ts w) (w_rot w) (w_rng w) (w_raf w) (w_timers w) (w_next w)
    ful thens micro (w_log w).
Definition set_log (l : list effect) (w : world) : world :=
  mk_world (w_ts w) (w_rot w) (w_rng w) (w_raf w) (w_timers w) (w_next w)
    (w_fulfilled w) (w_thens w) (w_micro w) l.

(** ** A state and exception monad for the script *)

Inductive js_error := TypeError.

Inductive result (A : Type) :=
| Ok (a : A) (w : world)
| Throw (e : js_error).
Arguments Ok {A}.
Arguments Throw {A}.

Definition M (A : Type) := world -> result A.

Definition ret {A} (a : A) : M A := fun w => Ok a w.
Definition bind {A B} (m : M A) (k : A -> M B) : M B :=
  fun w => match m w with Ok a w' => k a w' | Throw e => Throw e end.
Definition throw {A} (e : js_error) : M A := fun _ => Throw e.
Definition modify (f : world -> world) : M unit := fun w => Ok tt (f w).
Definition gets {A} (f : world -> A) : M A := fun w => Ok (f w) w.

Notation "'let*' x ':=' m 'in' k" := (bind m (fun x => k))
  (at level 200, x name, m at level 100, k at level 200).
Notation "m ;; k" := (bind m (fun _ => k)) (at level 100, right associativity).

Definition emit (e : effect) : M unit := modify (fun w => set_log (w_log w ++ [e]) w).

(** [Math.random()]. *)
Definition random : M Q :=
  fun w => Ok (w_rng w O) (set_rng (shift (w_rng w)) w).

(** [Math.floor(Math.random() * n)]. *)
Definition rand_floor (n : Z) : M Z :=
  let* r := random in ret (Qfloor (r * inject_Z n)).

Definition fresh : M nat := fun w => Ok (w_next w) (set_next (S (w_next w)) w).

Definition remove_id (i : nat) (l : list nat) : list nat :=
  filter (fun j => negb (Nat.eqb j i)) l.

(** [requestAnimationFrame] / [cancelAnimationFrame] (a [null] handle is
    ignored). *)
Definition request_frame : M nat :=
  let* id := fresh in modify (fun w => set_raf (w_raf w ++ [id]) w) ;; ret id.
Definition cancel_list (h : option nat) (l : list nat) : list nat :=
  match h with None => l | Some id => remove_id id l end.
Definition cancel_frame (h : option nat) : M unit :=
  modify (fun w => set_raf (cancel_list h (w_raf w)) w).

(** [setTimeout] / [clearTimeout]. *)
Definition set_timeout : M nat :=
  let* id := fresh in modify (fun w => set_timers (w_timers w ++ [id]) w) ;; ret id.
Definition clear_timeout (h : option nat) : M unit :=
  modify (fun w => set_timers (cancel_list h (w_timers w)) w).

(** Calling the resolve function of promise [p]: the first call fulfils
    it and queues its pending continuations; later calls do nothing. *)
Definition do_resolve (p : nat) : M unit :=
  emit (EResolve p) ;;
  modify (fun w =>
    if existsb (Nat.eqb p) (w_fulfilled w) then w
    else set_promises (p :: w_fulfilled w)
           (filter (fun q => negb (Nat.eqb q p)) (w_thens w))
           (w_micro w ++ filter (Nat.eqb p) (w_thens w)) w).

(** [promise.then(cb)]: queued at once when already fulfilled. *)
Definition register_then (p : nat) : M unit :=
  modify (fun w =>
    if existsb (Nat.eqb p) (w_fulfilled w)
    then set_promises (w_fulfilled w) (w_thens w) (w_micro w ++ [p]) w
    else set_promises (w_fulfilled w) (w_thens w ++ [p]) (w_micro w) w).

Definition get_ts : M scrambler := gets w_ts.
Definition modify_ts (f : scrambler -> scrambler) : M unit := modify (set_ts f).

Definition with_el (l : list piece) (q : list task) (ts : scrambler) : scrambler :=
  mk_scr l (ts_frameRequest ts) (ts_frame ts) q (ts_resolve ts).
Definition with_frame (f : Z) (ts : scrambler) : scrambler :=
  mk_scr (ts_el ts) (ts_frameRequest ts) f (ts_queue ts) (ts_resolve ts).
Definition with_request (h : option nat) (ts : scrambler) : scrambler :=
  mk_scr (ts_el ts) h (ts_frame ts) (ts_queue ts) (ts_resolve ts).
Definition with_queue (q : list task) (ts : scrambler) : scrambler :=
  mk_scr (ts_el ts) (ts_frameRequest ts) (ts_frame ts) q (ts_resolve ts).
Definition with_resolve (p : option nat) (ts : scrambler) : scrambler :=
  mk_scr (ts_el ts) (ts_frameRequest ts) (ts_frame ts) (ts_queue ts) p.

(** ** The text of the element *)

Definition piece_text (x : piece) : jsstr :=
  match x with
  | PText s => s
  | PScr (Some c) => [c]
  | PScr None => js "undefined"
  end.

(** [this.el.textContent] *)
Definition text_content (l : list piece) : jsstr := concat (map piece_text l).

Definition quote : jsstr := [34%N].

(** The [output] string assigned to [innerHTML]. *)
Definition piece_html (x : piece) : jsstr :=
  match x with
  | PText s => s
  | PScr c =>
      js "<span class=" ++ quote ++ js "scramble-char" ++ quote ++ js ">"
      ++ piece_text (PScr c) ++ js "</span>"
  end.

Definition inner_html (l : list piece) : jsstr := concat (map piece_html l).

(** ** TextScramble *)

(** [this.chars = '!<>-_\\/[]{}—=+*^?#'] (the dash is U+2014). *)
Definition glyphs : jsstr :=
  js "!<>-_\/[]{}" ++ [8212%N] ++ js "=+*^?#".

(** [s[k]] for an integer [k]. *)
Definition js_index (s : jsstr) (k : Z) : option N :=
  if k <? 0 then None else nth_error s (Z.to_nat k).

(** [oldText[i] || ''] *)
Definition char_at (s : jsstr) (i : nat) : jsstr :=
  match nth_error s i with Some c => [c] | None => [] end.

(** The [for] loop of [setText]: position [i], [n] positions left. *)
Fixpoint build_queue (oldText newText : jsstr) (i n : nat) : M (list task) :=
  match n with
  | O => ret []
  | S n' =>
      let* start := rand_floor 40 in
      let* d := rand_floor 40 in
      let* rest := build_queue oldText newText (S i) n' in
      ret (mk_task (char_at oldText i) (char_at newText i) start (start + d) None
           :: rest)
  end.

(** [this.chars[Math.floor(Math.random() * this.chars.length)]] *)
Definition draw_char : M (option N) :=
  let* k := rand_floor (Z.of_nat (length glyphs)) in ret (js_index glyphs k).

Definition js_lt (x y : Q) : bool := negb (Qle_bool y x).

(** [if (!char || Math.random() < 0.28) char = ...] *)
Definition next_char (c : option N) : M (option N) :=
  match c with
  | None => draw_char
  | Some ch => let* r := random in if js_lt r (28 # 100) then draw_char else ret (Some ch)
  end.

Definition set_char (t : task) (c : option N) : task :=
  mk_task (t_from t) (t_to t) (t_start t) (t_end t) c.

(** The [for] loop of [update]: the pieces of [output], the count
    [complete], and the queue with its [char] fields updated. *)
Fixpoint update_loop (frame : Z) (q : list task) : M (list piece * nat * list task) :=
  match q with
  | [] => ret ([], O, [])
  | t :: q' =>
      if frame >=? t_end t then
        let* r := update_loop frame q' in
        let '(out, complete, q2) := r in
        ret (PText (t_to t) :: out, S complete, t :: q2)
      else if frame >=? t_start t then
        let* c := next_char (t_char t) in
        let* r := update_loop frame q' in
        let '(out, complete, q2) := r in
        ret (PScr c :: out, complete, set_char t c :: q2)
      else
        let* r := update_loop frame q' in
        let '(out, complete, q2) := r in
        ret (PText (t_from t) :: out, complete, t :: q2)
  end.

(** [update()] *)
Definition update : M unit :=
  let* ts := get_ts in
  let* r := update_loop (ts_frame ts) (ts_queue ts) in
  let '(output, complete, q) := r in
  modify_ts (with_el output q) ;;
  if Nat.eqb complete (length q) then
    match ts_resolve ts with
    | Some p => do_resolve p
    | None => throw TypeError        (* [this.resolve] is [null] *)
    end
  else
    let* h := request_frame in
    modify_ts (fun ts => with_frame (ts_frame ts + 1) (with_request (Some h) ts)).

(** [setText(newText)]; [None] is an [undefined] argument, whose
    [.length] throws. *)
Definition setText (v : option jsstr) : M nat :=
  let* ts := get_ts in
  let oldText := text_content (ts_el ts) in
  match v with
  | None => throw TypeError
  | Some newText =>
      let len := Nat.max (length oldText) (length newText) in
      let* p := fresh in
      modify_ts (with_resolve (Some p)) ;;
      emit (EBegin p newText) ;;
      let* q := build_queue oldText newText O len in
      modify_ts (with_queue q) ;;
      let* ts' := get_ts in
      cancel_frame (ts_frameRequest ts') ;;
      modify_ts (with_frame 0) ;;
      update ;;
      ret p
  end.

(** [new TextScramble(element)] *)
Definition new_scrambler (el : list piece) : scrambler :=
  mk_scr el None 0 [] None.

(** ** WordRotator *)

Definition get_rot : M (option rotator) := gets w_rot.
Definition put_rot (r : rotator) : M unit := modify (set_rot (Some r)).

Definition with_index (i : nat) (r : rotator) : rotator :=
  mk_rot (r_words r) i (r_interval r) (r_timeoutId r).
Definition with_timeout (h : option nat) (r : rotator) : rotator :=
  mk_rot (r_words r) (r_currentIndex r) (r_interval r) h.

(** The continuation [() => { this.timeoutId = setTimeout(...) }] of
    the promise [p] returned by [setText]. *)
Definition continuation (p : nat) : M unit :=
  emit (EThen p) ;;
  let* h := set_timeout in
  let* o := get_rot in
  match o with
  | Some r => put_rot (with_timeout (Some h) r)
  | None => ret tt
  end.

(** [next()] *)
Definition next : M unit :=
  let* o := get_rot in
  match o with
  | None => ret tt
  | Some r =>
      let* p := setText (nth_error (r_words r) (r_currentIndex r)) in
      register_then p ;;
      let* o' := get_rot in
      match o' with
      | None => ret tt
      | Some r' =>
          let i := Nat.modulo (S (r_currentIndex r')) (length (r_words r')) in
          put_rot (with_index i r') ;;
          emit (EIndex i)
      end
  end.

(** [stop()] *)
Definition stop : M unit :=
  let* o := get_rot in
  match o with
  | None => ret tt
  | Some r => clear_timeout (r_timeoutId r)
  end.

(** [start()] *)
Definition start : M unit := next.

(** [new WordRotator(element, words, options)], with [options.interval]
    given or not. *)
Definition construct (words : list jsstr) (interval : option Z) : M unit :=
  let iv := match interval with Some v => v | None => 3000 end in
  put_rot (mk_rot words 0 iv None) ;;
  modify_ts (fun ts => new_scrambler (ts_el ts)) ;;
  start.

(** The word-rotation branch of [initKineticText] for one element, on
    its parsed [words] and [interval]. *)
Definition init_rotate (words : list jsstr) (interval : Z) : M unit :=
  if Nat.ltb 0 (length words) then construct words (Some interval) else ret tt.

(** ** The host: events and their handling *)

(** The microtask checkpoint: every queued continuation runs. *)
Fixpoint run_jobs (l : list nat) : M unit :=
  match l with
  | [] => ret tt
  | p :: l' => continuation p ;; run_jobs l'
  end.

Definition drain : M unit :=
  let* jobs := gets w_micro in
  modify (fun w => set_promises (w_fulfilled w) (w_thens w) [] w) ;;
  run_jobs jobs.

(** Every callback requested before the frame runs; each is [this.update]. *)
Fixpoint run_frame_callbacks (l : list nat) : M unit :=
  match l with
  | [] => ret tt
  | _ :: l' => update ;; run_frame_callbacks l'
  end.

Definition fire_frame : M unit :=
  let* cbs := gets w_raf in
  modify (set_raf []) ;;
  run_frame_callbacks cbs.

(** A timer elapses; each timer is [() => this.next()]. *)
Definition fire_timer (t : nat) : M unit :=
  let* ts := gets w_timers in
  if existsb (Nat.eqb t) ts
  then modify (set_timers (remove_id t ts)) ;; next
  else ret tt.

Inductive event :=
| EvSetText (s : jsstr)     (* a script calls [scrambler.setText(s)] *)
| EvFrame                   (* an animation frame *)
| EvTimer (t : nat)         (* timer [t] elapses *)
| EvStop.                   (* a script calls [rotator.stop()] *)

Definition handle (e : event) : M unit :=
  match e with
  | EvSetText s => setText (Some s) ;; ret tt
  | EvFrame => fire_frame
  | EvTimer t => fire_timer t
  | EvStop => stop
  end ;; drain.

Fixpoint run (es : list event) : M unit :=
  match es with
  | [] => ret tt
  | e :: es' => handle e ;; run es'
  end.

(** An element showing [txt], with no animation yet. *)
Definition init_world (txt : jsstr) (rng : stream) : world :=
  mk_world (new_scrambler [PText txt]) None rng [] [] O [] [] [] [].

Definition valid_rng (s : stream) : Prop := forall n, (0 <= s n /\ s n < 1)%Q.

Inductive reachable : world -> Prop :=
| reach_init txt rng : valid_rng rng -> reachable (init_world txt rng)
| reach_rotator words iv txt rng w :
    valid_rng rng ->
    (construct words iv ;; drain) (init_world txt rng) = Ok tt w ->
    reachable w
| reach_step e w w' : reachable w -> handle e w = Ok tt w' -> reachable w'.

(** ** Example worlds *)

Definition half : stream := fun _ => 1 # 2.

Definition ex_after (txt : jsstr) (es : list event) : result unit :=
  run es (init_world txt half).

Definition world_of (r : result unit) : option world :=
  match r with Ok _ w => Some w | Throw _ => None end.

(** The world a result leaves, [d] when it threw. *)
Definition after (r : result unit) (d : world) : world :=
  match r with Ok _ w => w | Throw _ => d end.

(** An element showing "AB", then [setText('')], then frames. *)
Definition ex_ab : world := init_world (js "AB") half.
Definition ex_ab1 : world := after (handle (EvSetText []) ex_ab) ex_ab.
Definition ex_ab40 : world := after (run (repeat EvFrame 39) ex_ab1) ex_ab1.
Definition ex_ab2 : world := after (run (repeat EvFrame 40) ex_ab1) ex_ab1.
Definition ex_cd : world := after (handle (EvSetText (js "CD")) ex_ab1) ex_ab1.

(** A rotator over ["A", "B"] on an empty element, and the same after [stop()]. *)
Definition rot_ab : world :=
  after ((construct [js "A"; js "B"] None ;; drain) (init_world [] half)) (init_world [] half).
Definition rot_stopped : world := after (handle EvStop rot_ab) rot_ab.

(** ** Invariants, relations and the worlds of single steps *)

Definition rng_after (s s' : stream) : Prop := exists j, forall m, s' m = s (j + m)%nat.

Definition char_ok (t : task) : Prop :=
  match t_char t with None => True | Some c => In c glyphs end.

Definition task_bounds (t : task) : Prop :=
  0 <= t_start t < 40 /\ t_start t <= t_end t < t_start t + 40.

(** Two versions of a task that differ at most in [char]. *)
Definition same_task (t t' : task) : Prop :=
  t_from t' = t_from t /\ t_to t' = t_to t /\ t_start t' = t_start t /\ t_end t' = t_end t.

(** The piece [update] emits for a task at frame [fr], [t'] being the
    task after its [char] has been refreshed. *)
Definition emit_piece (fr : Z) (t t' : task) : piece :=
  if fr >=? t_end t then PText (t_to t)
  else if fr >=? t_start t then PScr (t_char t')
  else PText (t_from t).

Definition effect_eq_dec (x y : effect) : {x = y} + {x <> y}.
Proof. decide equality; try apply Nat.eq_dec; apply list_eq_dec, N.eq_dec. Defined.

(** How many times the resolve function of [p] has been called. *)
Definition resolve_count (p : nat) (w : world) : nat :=
  count_occ effect_eq_dec (w_log w) (EResolve p).

Definition resolved (p : nat) (w : world) : Prop := In (EResolve p) (w_log w).

Record inv (w : world) : Prop := {
  inv_rng : valid_rng (w_rng w);
  inv_chars : Forall char_ok (ts_queue (w_ts w));
  inv_bounds : Forall task_bounds (ts_queue (w_ts w));
  inv_frame : 0 <= ts_frame (w_ts w);
  inv_raf : w_raf w = [] \/ exists h, w_raf w = [h] /\ ts_frameRequest (w_ts w) = Some h;
  inv_pending : w_raf w <> [] ->
    exists p, ts_resolve (w_ts w) = Some p /\ ~ resolved p w;
  inv_once : forall p, (resolve_count p w <= 1)%nat;
  inv_fresh_res : forall p, ts_resolve (w_ts w) = Some p -> (p < w_next w)%nat;
  inv_fresh_log : forall p, resolved p w -> (p < w_next w)%nat;
  inv_done : forall p, ts_resolve (w_ts w) = Some p -> resolved p w ->
    w_raf w = [] /\ Forall (fun t => t_end t <= ts_frame (w_ts w)) (ts_queue (w_ts w));
  inv_render_done : forall p, ts_resolve (w_ts w) = Some p -> resolved p w ->
    ts_el (w_ts w) = map (fun t => PText (t_to t)) (ts_queue (w_ts w));
  inv_raf_fresh : forall h, In h (w_raf w) -> (h < w_next w)%nat;
  inv_rot : forall r, w_rot w = Some r ->
    r_words r <> [] /\ (r_currentIndex r < length (r_words r))%nat
}.

(** What every step does to promises: ids only grow, [this.resolve] is
    kept or set to a new promise, and only the current or a new promise
    gets resolved. *)
Definition mono (w w' : world) : Prop :=
  (w_next w <= w_next w')%nat /\
  (ts_resolve (w_ts w') = ts_resolve (w_ts w) \/
     exists q, ts_resolve (w_ts w') = Some q /\ (w_next w <= q)%nat) /\
  (forall q, resolved q w' ->
     resolved q w \/ ts_resolve (w_ts w) = Some q \/ (w_next w <= q)%nat).

(** A step that leaves the scrambler, the random stream, the frame
    callbacks, the resolve calls and the rotator's words and index alone. *)
Definition benign (w w' : world) : Prop :=
  w_ts w' = w_ts w /\ w_rng w' = w_rng w /\ w_raf w' = w_raf w /\
  (w_next w <= w_next w')%nat /\
  (forall p, resolve_count p w' = resolve_count p w) /\
  (forall r', w_rot w' = Some r' -> exists r, w_rot w = Some r /\
     r_words r' = r_words r /\ r_currentIndex r' = r_currentIndex r).

(** [m] runs benign steps only. *)
Definition benign_m {A} (m : M A) : Prop :=
  forall w a w', m w = Ok a w' -> benign w w'.

Ltac benign_split :=
  split; [reflexivity|]; split; [reflexivity|]; split; [reflexivity|];
  split; [simpl; lia|].

Definition resolve_world (p : nat) (w : world) : world :=
  let w' := set_log (w_log w ++ [EResolve p]) w in
  if existsb (Nat.eqb p) (w_fulfilled w') then w'
  else set_promises (p :: w_fulfilled w')
         (filter (fun q => negb (Nat.eqb q p)) (w_thens w'))
         (w_micro w' ++ filter (Nat.eqb p) (w_thens w')) w'.

Ltac simpl_w :=
  cbn [w_ts w_rot w_rng w_raf w_timers w_next w_log w_fulfilled w_thens w_micro
       set_ts set_rot set_rng set_raf set_timers set_next set_log set_promises
       with_el with_frame with_request with_queue with_resolve
       ts_el ts_frameRequest ts_frame ts_queue ts_resolve
       r_words r_currentIndex r_interval r_timeoutId with_index with_timeout] in *.

(** The world in which [setText(newText)] runs its first [update]. *)
Definition setText_world (w : world) (newText : jsstr) (q : list task) (s1 : stream) : world :=
  let n := w_next w in
  mk_world (mk_scr (ts_el (w_ts w)) (ts_frameRequest (w_ts w)) 0 q (Some n))
    (w_rot w) s1 (cancel_list (ts_frameRequest (w_ts w)) (w_raf w)) (w_timers w) (S n)
    (w_fulfilled w) (w_thens w) (w_micro w) (w_log w ++ [EBegin n newText]).

(** ** Pending advances of the rotator *)

(** The rotator's pending advances: continuations waiting on a promise,
    queued continuation jobs and pending timers. *)
Definition pending (w : world) : nat :=
  length (w_thens w) + length (w_micro w) + length (w_timers w).

(** A step that keeps the timers and the rotator, and only moves
    continuations from waiting to queued. *)
Definition steady (w w' : world) : Prop :=
  pending w' = pending w /\ w_timers w' = w_timers w /\ w_rot w' = w_rot w /\
  (w_thens w = [] -> w_micro w = [] -> w_thens w' = [] /\ w_micro w' = []).

(** At most one advance is pending, none without a rotator, and every
    pending timer is the one [this.timeoutId] names. *)
Definition adv_pre (w : world) : Prop :=
  (pending w <= 1)%nat /\
  (w_rot w = None -> w_thens w = [] /\ w_micro w = []) /\
  (forall h, In h (w_timers w) -> exists r, w_rot w = Some r /\ r_timeoutId r = Some h).

Definition adv (w : world) : Prop := adv_pre w /\ w_micro w = [].

Definition rot_wait : world := after (run (repeat EvFrame 40) rot_ab) rot_ab.

Definition rot_wait_stopped : world := after (handle EvStop rot_wait) rot_wait.

(** ** The DOM of splitText, glitchText and Typewriter *)

(** A DOM node: text, comment, or an element with its attributes, its
    inline style properties and its children. *)
Inductive node :=
| DText (s : jsstr)
| DComment (s : jsstr)
| DElem (tag : jsstr) (attrs : list (jsstr * jsstr)) (style : list (jsstr * jsstr))
    (children : list node).

(** The element a function receives. *)
Record element := mk_el {
  el_tag : jsstr;
  el_attrs : list (jsstr * jsstr);
  el_style : list (jsstr * jsstr);
  el_children : list node
}.

Definition js_eqb (a b : jsstr) : bool := if list_eq_dec N.eq_dec a b then true else false.

(** [node.textContent]: the text of the text-node descendants. *)
Fixpoint node_text (n : node) : jsstr :=
  match n with
  | DText s => s
  | DComment _ => []
  | DElem _ _ _ cs => concat (map node_text cs)
  end.

Definition text_of (e : element) : jsstr := concat (map node_text (el_children e)).

(** [el.textContent = s]: the children become one text node, or none
    when [s] is empty. *)
Definition text_children (s : jsstr) : list node :=
  match s with [] => [] | _ => [DText s] end.

Definition set_text (s : jsstr) (e : element) : element :=
  mk_el (el_tag e) (el_attrs e) (el_style e) (text_children s).

Fixpoint get_attr (k : jsstr) (l : list (jsstr * jsstr)) : option jsstr :=
  match l with
  | [] => None
  | (k', v) :: l' => if js_eqb k k' then Some v else get_attr k l'
  end.

(** [setAttribute(k, v)] (and [style.setProperty(k, v)]): the value of
    an existing entry is replaced in place, a new one is appended. *)
Fixpoint set_attr (k v : jsstr) (l : list (jsstr * jsstr)) : list (jsstr * jsstr) :=
  match l with
  | [] => [(k, v)]
  | (k', v') :: l' => if js_eqb k k' then (k, v) :: l' else (k', v') :: set_attr k v l'
  end.

Definition with_attr (k v : jsstr) (e : element) : element :=
  mk_el (el_tag e) (set_attr k v (el_attrs e)) (el_style e) (el_children e).

Definition append_children (ns : list node) (e : element) : element :=
  mk_el (el_tag e) (el_attrs e) (el_style e) (el_children e ++ ns).

(** [String(i)] for an index [i]. *)
Fixpoint uint_digits (u : Decimal.uint) : jsstr :=
  match u with
  | Decimal.Nil => []
  | Decimal.D0 u => 48%N :: uint_digits u
  | Decimal.D1 u => 49%N :: uint_digits u
  | Decimal.D2 u => 50%N :: uint_digits u
  | Decimal.D3 u => 51%N :: uint_digits u
  | Decimal.D4 u => 52%N :: uint_digits u
  | Decimal.D5 u => 53%N :: uint_digits u
  | Decimal.D6 u => 54%N :: uint_digits u
  | Decimal.D7 u => 55%N :: uint_digits u
  | Decimal.D8 u => 56%N :: uint_digits u
  | Decimal.D9 u => 57%N :: uint_digits u
  end.

Definition dec (n : nat) : jsstr := uint_digits (Nat.to_uint n).

(** WhiteSpace and LineTerminator code units, which [trim] removes. *)
Definition is_ws (c : N) : bool :=
  (c =? 9)%N || (c =? 10)%N || (c =? 11)%N || (c =? 12)%N || (c =? 13)%N ||
  (c =? 32)%N || (c =? 160)%N || (c =? 5760)%N || ((8192 <=? c)%N && (c <=? 8202)%N) ||
  (c =? 8232)%N || (c =? 8233)%N || (c =? 8239)%N || (c =? 8287)%N ||
  (c =? 12288)%N || (c =? 65279)%N.

Fixpoint drop_ws (s : jsstr) : jsstr :=
  match s with
  | [] => []
  | c :: s' => if is_ws c then drop_ws s' else s
  end.

(** [s.trim()] *)
Definition trim (s : jsstr) : jsstr := rev (drop_ws (rev (drop_ws s))).

(** [s.split('')]: one string per code unit. *)
Definition split_chars (s : jsstr) : list jsstr := map (fun c => [c]) s.

(** [s.split(sep)] for a one-unit separator. *)
Fixpoint split_on (sep : N) (s : jsstr) : list jsstr :=
  match s with
  | [] => [[]]
  | c :: s' =>
      if (c =? sep)%N then [] :: split_on sep s'
      else match split_on sep s' with
           | w :: ws => (c :: w) :: ws
           | [] => [[c]]
           end
  end.

(** The span built for one character or word: [className],
    [style.setProperty(var, i)], [textContent] and [aria-hidden], in
    this order. *)
Definition make_span (cls var : jsstr) (i : nat) (t : jsstr) : node :=
  DElem (js "span") (set_attr (js "aria-hidden") (js "true") (set_attr (js "class") cls []))
    (set_attr var (dec i) []) (text_children t).

Definition nbsp : jsstr := [160%N].

(** The [chars.forEach] loop, from index [i]. *)
Fixpoint chars_nodes (i : nat) (chars : list jsstr) : list node :=
  match chars with
  | [] => []
  | ch :: rest =>
      make_span (js "char") (js "--char-index") i (if js_eqb ch (js " ") then nbsp else ch)
      :: chars_nodes (S i) rest
  end.

(** The [words.forEach] loop, from index [i], [len] being [words.length]. *)
Fixpoint words_nodes (i : nat) (words : list jsstr) (len : nat) : list node :=
  match words with
  | [] => []
  | w :: rest =>
      make_span (js "word") (js "--word-index") i w
      :: (if Nat.ltb i (len - 1) then [DText (js " ")] else [])
      ++ words_nodes (S i) rest len
  end.

(** [splitText(element, type)]; [None] is the default ['chars']. *)
Definition splitText (e : element) (type : option jsstr) : element :=
  let ty := match type with Some t => t | None => js "chars" end in
  let text := trim (text_of e) in
  let e1 := with_attr (js "aria-label") text (set_text [] e) in
  let e2 := if js_eqb ty (js "chars")
            then append_children (chars_nodes 0 (split_chars text)) e1 else e1 in
  if js_eqb ty (js "words")
  then let words := split_on 32 text in append_children (words_nodes 0 words (length words)) e2
  else e2.

Definition nbsp_unit (c : N) : N := if (c =? 32)%N then 160%N else c.

(** [words.join(' ')] *)
Fixpoint join_sp (ws : list jsstr) : jsstr :=
  match ws with
  | [] => []
  | [w] => w
  | w :: ws' => w ++ [32%N] ++ join_sp ws'
  end.

Fixpoint ws_free (s : jsstr) : bool :=
  match s with [] => true | c :: s' => negb (is_ws c) && ws_free s' end.

(** No leading whitespace. *)
Definition starts_ok (s : jsstr) : Prop :=
  match s with [] => True | c :: _ => is_ws c = false end.

(** ASCII whitespace, which separates the tokens of [class]. *)
Definition ascii_ws (c : N) : bool :=
  (c =? 9)%N || (c =? 10)%N || (c =? 12)%N || (c =? 13)%N || (c =? 32)%N.

Fixpoint split_ascii_ws (s : jsstr) : list jsstr :=
  match s with
  | [] => [[]]
  | c :: s' =>
      if ascii_ws c then [] :: split_ascii_ws s'
      else match split_ascii_ws s' with
           | w :: ws => (c :: w) :: ws
           | [] => [[c]]
           end
  end.

(** Appending to an ordered set. *)
Definition add_token (ts : list jsstr) (t : jsstr) : list jsstr :=
  if existsb (js_eqb t) ts then ts else ts ++ [t].

(** The ordered set parser: the non-empty tokens, first occurrences kept. *)
Definition token_list (v : jsstr) : list jsstr :=
  fold_left add_token (filter (fun t => negb (js_eqb t [])) (split_ascii_ws v)) [].

(** [element.classList]: the token set of the [class] attribute. *)
Definition class_list (e : element) : list jsstr :=
  match get_attr (js "class") (el_attrs e) with Some v => token_list v | None => [] end.

(** [classList.add(t)]: [t] is appended when absent, and the update
    steps set [class] to the serialised set. *)
Definition class_add (t : jsstr) (e : element) : element :=
  with_attr (js "class") (join_sp (add_token (class_list e) t)) e.

(** [glitchText(element)]; [dataset.text] is the attribute [data-text]. *)
Definition glitchText (e : element) : element :=
  let e1 := class_add (js "glitch") e in
  with_attr (js "data-text") (text_of e1) e1.

(** The fields of a [Typewriter] instance. *)
Record typewriter := mk_tw {
  tw_el : element;
  tw_text : jsstr;          (* [this.text] *)
  tw_speed : Z;             (* [this.options.speed] *)
  tw_delay : Z;             (* [this.options.delay] *)
  tw_cursor : bool          (* [this.options.cursor] *)
}.

(** [new Typewriter(element, options)], with [speed], [delay] and
    [cursor] given or not. *)
Definition new_typewriter (e : element) (speed delay : option Z) (cursor : option bool) :
    typewriter :=
  let sp := match speed with Some v => v | None => 50 end in
  let dl := match delay with Some v => v | None => 0 end in
  let cur := match cursor with Some b => b | None => true end in
  let text := text_of e in
  let e1 := set_text [] e in
  let e2 := if cur then class_add (js "typewriter-cursor") e1 else e1 in
  mk_tw e2 text sp dl cur.

(** Where [type()] is: waiting for its [setTimeout], typing with [i]
    characters written, or done (interval cleared). *)
Inductive tw_phase :=
| TwDelay
| TwTyping (i : nat)
| TwDone.

Record tw_state := mk_tws {
  tws_el : element;
  tws_phase : tw_phase;
  tws_resolved : bool       (* [resolve()] of the promise of [type()] was called *)
}.

(** [type()] has been called. *)
Definition type_start (tw : typewriter) : tw_state := mk_tws (tw_el tw) TwDelay false.

(** The next timer callback of [type()]: the [setTimeout] callback,
    which starts the interval with [i = 0], then each interval tick. *)
Definition tw_step (tw : typewriter) (st : tw_state) : tw_state :=
  match tws_phase st with
  | TwDelay => mk_tws (tws_el st) (TwTyping 0) (tws_resolved st)
  | TwTyping i =>
      if Nat.ltb i (length (tw_text tw))
      then mk_tws (set_text (text_of (tws_el st) ++ char_at (tw_text tw) i) (tws_el st))
             (TwTyping (S i)) (tws_resolved st)
      else mk_tws (tws_el st) TwDone true
  | TwDone => st
  end.

(** *** The token set of [class] *)

Definition good_tokens (ts : list jsstr) : Prop :=
  NoDup ts /\ Forall (fun t => t <> [] /\ forallb (fun c => negb (ascii_ws c)) t = true) ts.

(** ** The word-rotation branch of initKineticText *)

(** [el.dataset.words?.split(',').map((w) => w.trim()) || []]: a missing
    attribute gives [undefined], hence [[]]; a present one is split at
    comma (code unit 44) and each piece trimmed. *)
Definition words_of (dw : option jsstr) : list jsstr :=
  match dw with
  | None => []
  | Some s => map trim (split_on 44 s)
  end.

Definition is_digit (c : N) : bool := (48 <=? c)%N && (c <=? 57)%N.

(** The longest prefix of radix-10 digits. *)
Fixpoint digits_prefix (s : jsstr) : jsstr :=
  match s with
  | [] => []
  | c :: s' => if is_digit c then c :: digits_prefix s' else []
  end.

Definition digits_value (ds : jsstr) : Z :=
  fold_left (fun acc d => acc * 10 + Z.of_N (d - 48)) ds 0.

(** [parseInt(v, 10)]: [ToString(v)] ([undefined] becomes "undefined"),
    leading white space removed, an optional sign, then the longest digit
    prefix; no digit gives [NaN] ([None]). The value is kept exact, which
    is the JS number as long as it is below 2^53. *)
Definition parseInt10 (v : option jsstr) : option Z :=
  let s := drop_ws (match v with Some s => s | None => js "undefined" end) in
  let '(sign, s1) :=
    match s with
    | c :: s' => if (c =? 45)%N then (-1, s') else if (c =? 43)%N then (1, s') else (1, s)
    | [] => (1, s)
    end in
  match digits_prefix s1 with
  | [] => None
  | ds => Some (sign * digits_value ds)
  end.

(** [parseInt(el.dataset.interval, 10) || 3000]: [NaN], [0] and [-0] are
    falsy. *)
Definition interval_of (di : option jsstr) : Z :=
  match parseInt10 di with
  | Some z => if z =? 0 then 3000 else z
  | None => 3000
  end.

(** One element of [document.querySelectorAll('[data-kinetic="rotate"]')],
    with its [data-words] and [data-interval] attributes. *)
Definition rotate_element (dw di : option jsstr) : M unit :=
  init_rotate (words_of dw) (interval_of di).

(** ** The text of an [innerHTML] assignment *)

(** The text content of the nodes that the HTML fragment parser builds
    from a string assigned to [innerHTML], on an element whose content is
    parsed in the data state (not [textarea], [title], [script], [style]
    and the like). Only part of the parser is modelled: characters other
    than [<], [&], CR and NUL; a [<] that does not start a tag, which is
    kept as text; and start and end tags without attributes of [b], [i],
    [em], [strong] and [span], whose tree construction keeps the character
    tokens in order and adds none. Everything else (character references,
    comments, attributes, other tags, the newline normalisation of CR,
    NUL) gives [None]. *)
Inductive hstate := HData | HTagOpen | HEndTagOpen | HTagName (name : jsstr).

Definition ascii_alpha (c : N) : bool :=
  ((65 <=? c)%N && (c <=? 90)%N) || ((97 <=? c)%N && (c <=? 122)%N).

Definition ascii_lower (c : N) : N :=
  if (65 <=? c)%N && (c <=? 90)%N then (c + 32)%N else c.

Definition html_plain_char (c : N) : bool :=
  negb ((c =? 60)%N || (c =? 38)%N || (c =? 13)%N || (c =? 0)%N).

Definition html_simple_tag (name : jsstr) : bool :=
  existsb (js_eqb name) [js "b"; js "i"; js "em"; js "strong"; js "span"].

(** The tokenizer from state [st]; the tag name is kept reversed. *)
Fixpoint html_go (st : hstate) (s : jsstr) : option jsstr :=
  match s, st with
  | [], HData => Some []
  | [], HTagOpen => Some [60%N]                (* eof-before-tag-name *)
  | [], HEndTagOpen => Some [60%N; 47%N]       (* eof-before-tag-name *)
  | [], HTagName _ => Some []                  (* eof-in-tag: no tag *)
  | c :: s', HData =>
      if (c =? 60)%N then html_go HTagOpen s'
      else if html_plain_char c then option_map (cons c) (html_go HData s')
      else None
  | c :: s', HTagOpen =>
      if (c =? 47)%N then html_go HEndTagOpen s'
      else if ascii_alpha c then html_go (HTagName [ascii_lower c]) s'
      else if (c =? 33)%N || (c =? 63)%N then None
      (* invalid-first-character-of-tag-name: [<] is text, [c] is
         reconsumed in the data state *)
      else if (c =? 60)%N then option_map (cons 60%N) (html_go HTagOpen s')
      else if html_plain_char c then option_map (fun t => 60%N :: c :: t) (html_go HData s')
      else None
  | c :: s', HEndTagOpen =>
      if ascii_alpha c then html_go (HTagName [ascii_lower c]) s'
      else if (c =? 62)%N then html_go HData s'  (* missing-end-tag-name *)
      else None
  | c :: s', HTagName n =>
      if (c =? 62)%N then (if html_simple_tag (rev n) then html_go HData s' else None)
      else html_go (HTagName (ascii_lower c :: n)) s'
  end.

(** [element.textContent] after [element.innerHTML = html]. *)
Definition html_text_content (html : jsstr) : option jsstr := html_go HData html.

(** An empty element, then [setText('<b>x')], then 40 animation frames. *)
Definition ex_bx : world := init_world [] half.
Definition ex_bx1 : world := after (handle (EvSetText (js "<b>x")) ex_bx) ex_bx.
Definition ex_bx2 : world := after (run (repeat EvFrame 40) ex_bx1) ex_bx1.

(** ** Examples *)

Example glyphs_length : length glyphs = 18%nat.
Proof. reflexivity. Qed.

Example ex_first_render :
  option_map (fun w => text_content (ts_el (w_ts w)))
    (world_of (ex_after (js "AB") [EvSetText (js "CD")])) = Some (js "AB").
Proof. vm_compute. reflexivity. Qed.

(** ** Shape lemmas *)

Lemma rng_after_refl s : rng_after s s.
Proof. exists O. reflexivity. Qed.

Lemma rng_after_shift s s' : rng_after (shift s) s' -> rng_after s s'.
Proof.
  intros [j Hj]. exists (S j). intro m. rewrite Hj. unfold shift. f_equal.
Qed.

Lemma rng_after_trans s1 s2 s3 : rng_after s1 s2 -> rng_after s2 s3 -> rng_after s1 s3.
Proof.
  intros [j Hj] [k Hk]. exists (j + k)%nat. intro m. rewrite Hk, Hj. f_equal. lia.
Qed.

Lemma valid_after s s' : valid_rng s -> rng_after s s' -> valid_rng s'.
Proof. intros Hv [j Hj] m. rewrite Hj. apply Hv. Qed.

Lemma valid_shift s : valid_rng s -> valid_rng (shift s).
Proof. intros Hv m. apply Hv. Qed.

(** [Math.floor(r * n)] lies in [[0, n)] for [0 <= r < 1]. *)
Lemma qfloor_range (r : Q) (n : Z) :
  (0 <= r)%Q -> (r < 1)%Q -> 0 < n -> 0 <= Qfloor (r * inject_Z n) < n.
Proof.
  destruct r as [a b]. unfold Qle, Qlt, inject_Z. simpl. intros H0 H1 Hn.
  rewrite Z.mul_1_r in *. rewrite Pos.mul_1_r.
  split.
  - apply Z.div_pos; lia.
  - apply Z.div_lt_upper_bound; [lia|]. nia.
Qed.

Lemma rand_floor_eq n w :
  rand_floor n w = Ok (Qfloor (w_rng w O * inject_Z n)) (set_rng (shift (w_rng w)) w).
Proof. reflexivity. Qed.

Lemma set_rng_twice s s' w : set_rng s' (set_rng s w) = set_rng s' w.
Proof. reflexivity. Qed.

Lemma set_rng_id w : set_rng (w_rng w) w = w.
Proof. destruct w; reflexivity. Qed.

Lemma w_rng_set_rng s w : w_rng (set_rng s w) = s.
Proof. reflexivity. Qed.

Lemma draw_char_shape w :
  exists c s, draw_char w = Ok c (set_rng s w) /\ rng_after (w_rng w) s /\
    (valid_rng (w_rng w) -> exists g, c = Some g /\ In g glyphs).
Proof.
  eexists _, _. split; [reflexivity|]. split.
  - exists 1%nat. reflexivity.
  - intro Hv. unfold js_index.
    destruct (Hv O) as [H0 H1].
    pose proof (qfloor_range (w_rng w O) (Z.of_nat (length glyphs)) H0 H1) as Hr.
    destruct Hr as [Hlo Hhi]; [simpl; lia|].
    replace (Qfloor (w_rng w O * inject_Z (Z.of_nat (length glyphs))) <? 0) with false
      by (symmetry; apply Z.ltb_ge; lia).
    destruct (nth_error glyphs _) as [g|] eqn:E.
    + exists g. split; [reflexivity|]. eapply nth_error_In; eauto.
    + apply nth_error_None in E. lia.
Qed.

Lemma next_char_shape c w :
  exists c' s, next_char c w = Ok c' (set_rng s w) /\ rng_after (w_rng w) s /\
    (valid_rng (w_rng w) -> match c with None => True | Some g => In g glyphs end ->
       exists g, c' = Some g /\ In g glyphs).
Proof.
  destruct c as [ch|].
  - simpl. unfold bind, random.
    destruct (js_lt (w_rng w O) (28 # 100)).
    + destruct (draw_char_shape (set_rng (shift (w_rng w)) w)) as (c' & s & E & Ha & Hg).
      rewrite E. exists c', s. split; [reflexivity|]. split.
      * apply rng_after_shift. exact Ha.
      * intros Hv _. apply Hg. apply valid_shift. exact Hv.
    + exists (Some ch), (shift (w_rng w)). split; [reflexivity|]. split.
      * exists 1%nat. reflexivity.
      * intros _ Hin. exists ch. auto.
  - destruct (draw_char_shape w) as (c' & s & E & Ha & Hg).
    exists c', s. simpl. rewrite E. auto.
Qed.

Lemma geb_false x y : (x >=? y) = false <-> x < y.
Proof. rewrite Z.geb_leb. apply Z.leb_gt. Qed.

Lemma update_loop_shape fr q w :
  exists out c q' s,
    update_loop fr q w = Ok (out, c, q') (set_rng s w) /\
    rng_after (w_rng w) s /\
    length out = length q /\ length q' = length q /\
    (c <= length q)%nat /\
    (c = length q <-> Forall (fun t => t_end t <= fr) q) /\
    Forall2 same_task q q' /\
    (forall i t t', nth_error q i = Some t -> nth_error q' i = Some t' ->
        nth_error out i = Some (emit_piece fr t t') /\
        (t_end t <= fr \/ fr < t_start t -> t' = t)) /\
    (valid_rng (w_rng w) -> Forall char_ok q ->
       Forall char_ok q' /\
       forall i t', nth_error q' i = Some t' -> t_start t' <= fr < t_end t' ->
         exists g, t_char t' = Some g /\ In g glyphs).
Proof.
  revert w. induction q as [|t q IH]; intro w.
  - exists [], O, [], (w_rng w). split; [rewrite set_rng_id; reflexivity|].
    split; [apply rng_after_refl|].
    split; [reflexivity|]. split; [reflexivity|]. split; [simpl; lia|].
    split; [split; auto|]. split; [constructor|].
    split; [intros [|i] t t' H; discriminate|].
    intros _ _. split; [constructor|]. intros [|i] t' H; discriminate.
  - cbn [update_loop]. destruct (fr >=? t_end t) eqn:E1.
    + (* frozen *)
      destruct (IH w) as (out & c & q2 & s & Eq & Ha & Hl1 & Hl2 & Hc & Hci & Hs & Hi & Hv).
      unfold bind at 1. rewrite Eq.
      exists (PText (t_to t) :: out), (S c), (t :: q2), s.
      split; [reflexivity|]. split; [exact Ha|].
      apply Z.geb_le in E1.
      split; [simpl; lia|]. split; [simpl; lia|]. split; [simpl; lia|].
      split.
      { simpl. split; intro H.
        - constructor; [lia|]. apply Hci. lia.
        - inversion H; subst. apply f_equal. apply Hci. assumption. }
      split.
      { constructor; [|exact Hs]. unfold same_task; auto. }
      split.
      { intros [|i] t1 t1' H1 H1'; simpl in H1, H1'.
        - injection H1 as <-. injection H1' as <-. unfold emit_piece.
          simpl. rewrite (proj2 (Z.geb_le _ _) E1). auto.
        - apply Hi; assumption. }
      intros Hvv Hok. inversion Hok as [|x y Hok1 Hok2]; subst.
      destruct (Hv Hvv Hok2) as [Hok' Hg]. split; [constructor; assumption|].
      intros [|i] t1' H1 Hr; simpl in H1.
      * injection H1 as <-. lia.
      * eapply Hg; eassumption.
    + destruct (fr >=? t_start t) eqn:E2.
      * (* resolving *)
        destruct (next_char_shape (t_char t) w) as (c1 & s1 & Ec & Ha1 & Hg1).
        destruct (IH (set_rng s1 w)) as
          (out & c & q2 & s & Eq & Ha & Hl1 & Hl2 & Hc & Hci & Hs & Hi & Hv).
        unfold bind at 1. rewrite Ec. unfold bind at 1. rewrite Eq.
        rewrite set_rng_twice.
        exists (PScr c1 :: out), c, (set_char t c1 :: q2), s.
        split; [reflexivity|].
        rewrite w_rng_set_rng in Ha, Hv.
        split; [eapply rng_after_trans; eassumption|].
        apply geb_false in E1. apply Z.geb_le in E2.
        split; [simpl; lia|]. split; [simpl; lia|]. split; [simpl; lia|].
        split.
        { simpl. split; intro H.
          - exfalso. lia.
          - inversion H; subst. lia. }
        split.
        { constructor; [|exact Hs]. unfold same_task; simpl; auto. }
        split.
        { intros [|i] t1 t1' H1 H1'; simpl in H1, H1'.
          - injection H1 as <-. injection H1' as <-. unfold emit_piece.
            rewrite (proj2 (geb_false _ _) E1), (proj2 (Z.geb_le _ _) E2).
            split; [reflexivity|]. intros [H|H]; lia.
          - apply Hi; assumption. }
        intros Hvv Hok. inversion Hok as [|x y Hok1 Hok2]; subst.
        assert (Hvs : valid_rng s1) by (eapply valid_after; eassumption).
        destruct (Hv Hvs Hok2) as [Hok' Hg].
        destruct (Hg1 Hvv) as (g & Hg' & Hin).
        { unfold char_ok in Hok1. destruct (t_char t); auto. }
        split.
        { constructor; [|assumption]. unfold char_ok, set_char. simpl. rewrite Hg'. exact Hin. }
        intros [|i] t1' H1 Hr; simpl in H1.
        -- injection H1 as <-. exists g. split; assumption.
        -- eapply Hg; eassumption.
      * (* pending *)
        destruct (IH w) as (out & c & q2 & s & Eq & Ha & Hl1 & Hl2 & Hc & Hci & Hs & Hi & Hv).
        unfold bind at 1. rewrite Eq.
        exists (PText (t_from t) :: out), c, (t :: q2), s.
        split; [reflexivity|]. split; [exact Ha|].
        apply geb_false in E1. apply geb_false in E2.
        split; [simpl; lia|]. split; [simpl; lia|]. split; [simpl; lia|].
        split.
        { simpl. split; intro H.
          - exfalso. lia.
          - inversion H; subst. lia. }
        split.
        { constructor; [|exact Hs]. unfold same_task; auto. }
        split.
        { intros [|i] t1 t1' H1 H1'; simpl in H1, H1'.
          - injection H1 as <-. injection H1' as <-. unfold emit_piece.
            rewrite (proj2 (geb_false _ _) E1), (proj2 (geb_false _ _) E2). auto.
          - apply Hi; assumption. }
        intros Hvv Hok. inversion Hok as [|x y Hok1 Hok2]; subst.
        destruct (Hv Hvv Hok2) as [Hok' Hg]. split; [constructor; assumption|].
        intros [|i] t1' H1 Hr; simpl in H1.
        -- injection H1 as <-. lia.
        -- eapply Hg; eassumption.
Qed.

Lemma build_queue_shape o n i k w :
  exists q s, build_queue o n i k w = Ok q (set_rng s w) /\ rng_after (w_rng w) s /\
    length q = k /\
    (forall m t, nth_error q m = Some t ->
       t_from t = char_at o (i + m) /\ t_to t = char_at n (i + m) /\ t_char t = None) /\
    (valid_rng (w_rng w) -> Forall task_bounds q).
Proof.
  revert i w. induction k as [|k IH]; intros i w.
  - exists [], (w_rng w). rewrite set_rng_id. split; [reflexivity|].
    split; [apply rng_after_refl|]. split; [reflexivity|].
    split; [intros [|m] t H; discriminate|]. intros _. constructor.
  - cbn [build_queue]. unfold bind at 1. rewrite rand_floor_eq.
    unfold bind at 1. rewrite rand_floor_eq.
    set (w2 := set_rng (shift (w_rng (set_rng (shift (w_rng w)) w))) (set_rng (shift (w_rng w)) w)).
    destruct (IH (S i) w2) as (q & s & Eq & Ha & Hl & Hf & Hb).
    unfold bind at 1. rewrite Eq.
    eexists _, s. split; [unfold w2; rewrite !set_rng_twice; reflexivity|].
    assert (Ha' : rng_after (w_rng w) s).
    { eapply rng_after_trans; [|exact Ha]. exists 2%nat. reflexivity. }
    split; [exact Ha'|]. split; [simpl; lia|].
    split.
    { intros [|m] t H; simpl in H.
      - injection H as <-. simpl. rewrite Nat.add_0_r. auto.
      - destruct (Hf m t H) as (A & B & C). rewrite <- Nat.add_succ_comm. auto. }
    intro Hv. constructor.
    + destruct (Hv O) as [H0 H1]. destruct (Hv 1%nat) as [H2 H3].
      pose proof (qfloor_range _ 40 H0 H1 ltac:(lia)) as R1.
      pose proof (qfloor_range _ 40 H2 H3 ltac:(lia)) as R2.
      unfold task_bounds. cbn [t_start t_end w_rng set_rng shift] in *. unfold shift. lia.
    + apply Hb. unfold w2. simpl. eapply valid_after; [exact Hv|]. exists 2%nat. reflexivity.
Qed.

(** *** Promises, benign steps and the invariant *)

Lemma mono_refl w : mono w w.
Proof. split; [lia|]. split; [left; reflexivity|]. intros q H. left; exact H. Qed.

Lemma mono_trans w1 w2 w3 : mono w1 w2 -> mono w2 w3 -> mono w1 w3.
Proof.
  intros (A1 & B1 & C1) (A2 & B2 & C2). split; [lia|]. split.
  - destruct B2 as [B2|(q & B2 & L2)].
    + rewrite B2. exact B1.
    + right. exists q. split; [exact B2|lia].
  - intros q H. destruct (C2 q H) as [H2|[H2|H2]].
    + exact (C1 q H2).
    + destruct B1 as [B1|(q' & B1 & L1)].
      * right; left. congruence.
      * right; right. rewrite H2 in B1. injection B1 as ->. exact L1.
    + right; right. lia.
Qed.

Lemma resolved_count p w : resolved p w <-> (resolve_count p w > 0)%nat.
Proof. apply count_occ_In. Qed.

Lemma benign_inv w w' : inv w -> benign w w' -> inv w' /\ mono w w'.
Proof.
  intros I (Ets & Erng & Eraf & Enext & Ecnt & Erot).
  assert (Hr : forall p, resolved p w' <-> resolved p w).
  { intro p. rewrite !resolved_count, Ecnt. reflexivity. }
  split.
  - destruct I. constructor.
    + rewrite Erng; auto.
    + rewrite Ets; auto.
    + rewrite Ets; auto.
    + rewrite Ets; auto.
    + rewrite Eraf, Ets; auto.
    + rewrite Eraf, Ets. intros Hp. destruct (inv_pending0 Hp) as (q & A & B).
      exists q. rewrite Hr. auto.
    + intro p. rewrite Ecnt. auto.
    + rewrite Ets. intros p Hp. specialize (inv_fresh_res0 p Hp). lia.
    + intros p Hp. apply Hr in Hp. specialize (inv_fresh_log0 p Hp). lia.
    + rewrite Ets, Eraf. intros p Hp Hq. apply Hr in Hq. exact (inv_done0 p Hp Hq).
    + rewrite Ets. intros p Hp Hq. apply Hr in Hq. exact (inv_render_done0 p Hp Hq).
    + rewrite Eraf. intros h Hh. specialize (inv_raf_fresh0 h Hh). lia.
    + intros r' Hr'. destruct (Erot r' Hr') as (r & H1 & H2 & H3).
      rewrite H2, H3. auto.
  - split; [exact Enext|]. split; [left; rewrite Ets; reflexivity|].
    intros q Hq. left. apply Hr. exact Hq.
Qed.

Lemma benign_refl w : benign w w.
Proof.
  repeat split; auto. intros r' H. exists r'. auto.
Qed.

Lemma benign_trans w1 w2 w3 : benign w1 w2 -> benign w2 w3 -> benign w1 w3.
Proof.
  intros (A1 & B1 & C1 & D1 & E1 & F1) (A2 & B2 & C2 & D2 & E2 & F2).
  split; [congruence|]. split; [congruence|]. split; [congruence|].
  split; [lia|]. split; [intro p; rewrite E2; auto|].
  intros r3 H3. destruct (F2 r3 H3) as (r2 & H2 & W2 & I2).
  destruct (F1 r2 H2) as (r1 & H1 & W1 & I1). exists r1. split; [auto|]. split; congruence.
Qed.

Lemma benign_bind {A B} (m : M A) (k : A -> M B) :
  benign_m m -> (forall a, benign_m (k a)) -> benign_m (bind m k).
Proof.
  intros Hm Hk w b w' H. unfold bind in H.
  destruct (m w) as [a w1|e] eqn:E; [|discriminate].
  eapply benign_trans; [eapply Hm; exact E|]. eapply Hk; exact H.
Qed.

Lemma benign_ret {A} (a : A) : benign_m (ret a).
Proof. intros w b w' H. injection H as _ <-. apply benign_refl. Qed.

Lemma count_emit_other p l e :
  (forall q, e <> EResolve q) ->
  count_occ effect_eq_dec (l ++ [e]) (EResolve p) = count_occ effect_eq_dec l (EResolve p).
Proof.
  intro He. rewrite count_occ_app, count_occ_cons_neq, count_occ_nil; [lia|apply He].
Qed.

Lemma count_emit_resolve p q l :
  count_occ effect_eq_dec (l ++ [EResolve q]) (EResolve p) =
  (count_occ effect_eq_dec l (EResolve p) + if Nat.eqb q p then 1 else 0)%nat.
Proof.
  rewrite count_occ_app.
  destruct (Nat.eqb_spec q p) as [->|E].
  - rewrite count_occ_cons_eq, count_occ_nil; [lia|reflexivity].
  - rewrite count_occ_cons_neq, count_occ_nil; [lia|congruence].
Qed.

Lemma benign_emit e : (forall q, e <> EResolve q) -> benign_m (emit e).
Proof.
  intros He w a w' H. injection H as _ <-. benign_split.
  split; [intro p; apply count_emit_other; exact He|].
  intros r' H'. exists r'. auto.
Qed.

Lemma benign_gets {A} (f : world -> A) : benign_m (gets f).
Proof. intros w a w' H. injection H as _ <-. apply benign_refl. Qed.

Lemma benign_set_timeout : benign_m set_timeout.
Proof.
  intros w a w' H. injection H as _ <-. benign_split.
  split; [reflexivity|]. intros r' H'. exists r'. auto.
Qed.

Lemma benign_clear_timeout h : benign_m (clear_timeout h).
Proof.
  intros w a w' H. injection H as _ <-. benign_split.
  split; [reflexivity|]. intros r' H'. exists r'. auto.
Qed.

Lemma benign_register_then p : benign_m (register_then p).
Proof.
  intros w a w' H. injection H as _ <-.
  destruct (existsb _ _); (benign_split; split; [reflexivity|]; intros r' H'; exists r'; auto).
Qed.

Lemma benign_continuation p : benign_m (continuation p).
Proof.
  intros w a w' H. unfold continuation in H.
  unfold bind at 1 in H. destruct (emit (EThen p) w) as [u w1|] eqn:E1; [|discriminate].
  assert (B1 : benign w w1) by (refine (benign_emit (EThen p) _ w u w1 E1); intros q Hq; discriminate Hq).
  unfold bind at 1 in H. destruct (set_timeout w1) as [h w2|] eqn:E2; [|discriminate].
  assert (B2 : benign w1 w2) by (eapply benign_set_timeout; exact E2).
  unfold bind, get_rot, gets in H.
  destruct (w_rot w2) as [r|] eqn:Er.
  - injection H as _ <-. eapply benign_trans; [exact B1|]. eapply benign_trans; [exact B2|].
    benign_split. split; [reflexivity|].
    intros r' H'. simpl in H'. injection H' as <-. exists r. auto.
  - injection H as _ <-. eapply benign_trans; eassumption.
Qed.

Lemma benign_run_jobs l : benign_m (run_jobs l).
Proof.
  induction l as [|p l IH]; simpl.
  - apply benign_ret.
  - apply benign_bind; [apply benign_continuation|intros _; exact IH].
Qed.

Lemma benign_drain : benign_m drain.
Proof.
  intros w a w' H. unfold drain, bind, gets, modify in H.
  eapply benign_trans; [|eapply benign_run_jobs; exact H].
  benign_split. split; [reflexivity|]. intros r' H'. exists r'. auto.
Qed.

Lemma benign_stop : benign_m stop.
Proof.
  intros w a w' H. unfold stop, bind, get_rot, gets in H.
  destruct (w_rot w) as [r|].
  - eapply benign_clear_timeout; exact H.
  - injection H as _ <-. apply benign_refl.
Qed.

(** *** The per-frame update *)

Lemma do_resolve_eq p w : do_resolve p w = Ok tt (resolve_world p w).
Proof. reflexivity. Qed.

Lemma update_eq w out c q' s :
  update_loop (ts_frame (w_ts w)) (ts_queue (w_ts w)) w = Ok (out, c, q') (set_rng s w) ->
  update w =
    (let w1 := set_ts (with_el out q') (set_rng s w) in
     if Nat.eqb c (length q') then
       match ts_resolve (w_ts w) with
       | Some p => Ok tt (resolve_world p w1)
       | None => Throw TypeError
       end
     else Ok tt (set_ts (fun ts => with_frame (ts_frame ts + 1) (with_request (Some (w_next w1)) ts))
                  (set_raf (w_raf w1 ++ [w_next w1]) (set_next (S (w_next w1)) w1)))).
Proof.
  intro H. unfold update. unfold bind at 1. unfold get_ts, gets. cbv beta iota.
  unfold bind at 1. rewrite H.
  destruct (Nat.eqb c (length q')); [destruct (ts_resolve (w_ts w))|]; reflexivity.
Qed.

Lemma resolve_world_fields p w :
  w_ts (resolve_world p w) = w_ts w /\ w_rot (resolve_world p w) = w_rot w /\
  w_rng (resolve_world p w) = w_rng w /\ w_raf (resolve_world p w) = w_raf w /\
  w_timers (resolve_world p w) = w_timers w /\ w_next (resolve_world p w) = w_next w /\
  w_log (resolve_world p w) = w_log w ++ [EResolve p].
Proof. unfold resolve_world. destruct (existsb _ _); simpl; auto 10. Qed.

Lemma Forall2_transfer (P P' : task -> Prop) q q' :
  Forall2 same_task q q' -> (forall t t', same_task t t' -> P t -> P' t') ->
  Forall P q -> Forall P' q'.
Proof.
  intros H2 HP H. induction H2; [constructor|].
  inversion H; subst. constructor; eauto.
Qed.

Lemma same_bounds t t' : same_task t t' -> task_bounds t -> task_bounds t'.
Proof. intros (A & B & C & D) H. unfold task_bounds in *. rewrite C, D. exact H. Qed.

Lemma count_zero p w : ~ resolved p w -> resolve_count p w = O.
Proof. intro H. apply count_occ_not_In. exact H. Qed.

Lemma Forall2_nth_r {A B} (R : A -> B -> Prop) l l' i y :
  Forall2 R l l' -> nth_error l' i = Some y -> exists x, nth_error l i = Some x /\ R x y.
Proof.
  intro H. revert i. induction H as [|x y' l l' Hxy H IH]; intros [|i] E; try discriminate.
  - injection E as <-. exists x. auto.
  - simpl in E |- *. apply IH. exact E.
Qed.

Lemma Forall2_nth_l {A B} (R : A -> B -> Prop) l l' i x :
  Forall2 R l l' -> nth_error l i = Some x -> exists y, nth_error l' i = Some y /\ R x y.
Proof.
  intro H. revert i. induction H as [|x' y l l' Hxy H IH]; intros [|i] E; try discriminate.
  - injection E as <-. exists y. auto.
  - simpl in E |- *. apply IH. exact E.
Qed.

Lemma complete_render fr q q' out :
  length out = length q -> Forall2 same_task q q' ->
  (forall i t t', nth_error q i = Some t -> nth_error q' i = Some t' ->
     nth_error out i = Some (emit_piece fr t t')) ->
  Forall (fun t => t_end t <= fr) q ->
  out = map (fun t => PText (t_to t)) q'.
Proof.
  intros Hl Hs Hi Hall. apply nth_error_ext. intro i.
  rewrite nth_error_map. destruct (nth_error q i) as [t|] eqn:E.
  - destruct (Forall2_nth_l _ _ _ _ _ Hs E) as (t' & E' & (_ & B & _)).
    rewrite E', (Hi i t t' E E'). simpl. unfold emit_piece.
    rewrite Forall_forall in Hall. specialize (Hall t (nth_error_In _ _ E)).
    rewrite (proj2 (Z.geb_le _ _) Hall), B. reflexivity.
  - apply nth_error_None in E. rewrite (Forall2_length Hs) in E.
    rewrite (proj2 (nth_error_None q' i) E).
    apply nth_error_None. rewrite Hl, (Forall2_length Hs). exact E.
Qed.

Lemma update_inv w p :
  inv w -> w_raf w = [] -> ts_resolve (w_ts w) = Some p -> ~ resolved p w ->
  exists w', update w = Ok tt w' /\ inv w' /\ mono w w' /\
    w_rot w' = w_rot w /\ w_timers w' = w_timers w /\
    ts_resolve (w_ts w') = ts_resolve (w_ts w).
Proof.
  intros I Hraf Hp Hnr.
  destruct (update_loop_shape (ts_frame (w_ts w)) (ts_queue (w_ts w)) w)
    as (out & c & q' & s & Eq & Ha & Hl1 & Hl2 & Hc & Hci & Hs & Hi & Hv).
  rewrite (update_eq _ _ _ _ _ Eq). cbv zeta.
  destruct (Hv (inv_rng _ I) (inv_chars _ I)) as [Hok _].
  assert (Hb : Forall task_bounds q')
    by (eapply Forall2_transfer; [exact Hs|exact same_bounds|exact (inv_bounds _ I)]).
  assert (Hvs : valid_rng s) by (eapply valid_after; [exact (inv_rng _ I)|exact Ha]).
  destruct (Nat.eqb_spec c (length q')) as [Ec|Ec].
  - (* every task complete: resolve *)
    set (w1 := set_ts (with_el out q') (set_rng s w)).
    rewrite Hp. eexists. split; [reflexivity|].
    destruct (resolve_world_fields p w1) as (F1 & F2 & F3 & F4 & F5 & F6 & F7).
    assert (Hall : Forall (fun t => t_end t <= ts_frame (w_ts w)) q').
    { eapply Forall2_transfer; [exact Hs| |apply Hci; lia].
      intros t t' (A & B & C & D) H. rewrite D. exact H. }
    assert (Hcnt : forall p', resolve_count p' (resolve_world p w1) =
              (resolve_count p' w + if Nat.eqb p p' then 1 else 0)%nat).
    { intro p'. unfold resolve_count. rewrite F7. apply count_emit_resolve. }
    assert (Hres : forall p', resolved p' (resolve_world p w1) -> resolved p' w \/ p' = p).
    { intros p' H. unfold resolved in *. rewrite F7 in H. apply in_app_or in H.
      destruct H as [H|[H|[]]]; [left; exact H|right; congruence]. }
    split; [constructor|].
    + rewrite F3. exact Hvs.
    + rewrite F1. exact Hok.
    + rewrite F1. exact Hb.
    + rewrite F1. exact (inv_frame _ I).
    + left. rewrite F4. exact Hraf.
    + rewrite F4. intro H. contradiction.
    + intro p'. rewrite Hcnt. pose proof (inv_once _ I p') as H1.
      destruct (Nat.eqb_spec p p'); [subst; rewrite (count_zero _ _ Hnr)|]; lia.
    + rewrite F1, F6. exact (inv_fresh_res _ I).
    + intros p' H. rewrite F6. destruct (Hres p' H) as [H'| ->].
      * exact (inv_fresh_log _ I p' H').
      * exact (inv_fresh_res _ I p Hp).
    + intros p' _ _. rewrite F1, F4. split; [exact Hraf|exact Hall].
    + intros p' _ _. rewrite F1. unfold w1. simpl_w.
      apply (complete_render (ts_frame (w_ts w)) (ts_queue (w_ts w))); auto.
      * intros i t t' H1 H2. apply (Hi i t t' H1 H2).
      * apply Hci. lia.
    + rewrite F4. unfold w1. simpl_w. rewrite Hraf. intros h [].
    + rewrite F2. exact (inv_rot _ I).
    + split; [|split; [exact F2|split; [exact F5|rewrite F1; exact Hp]]].
      split; [rewrite F6; unfold w1; simpl_w; lia|]. split; [left; rewrite F1; reflexivity|].
      intros q H. destruct (Hres q H) as [H'| ->]; [left; exact H'|right; left; exact Hp].
  - (* some task incomplete: request the next frame *)
    eexists. split; [reflexivity|]. split; [constructor|]; simpl_w.
    + exact Hvs.
    + exact Hok.
    + exact Hb.
    + pose proof (inv_frame _ I). lia.
    + right. exists (w_next w). rewrite Hraf. auto.
    + intros _. exists p. split; [exact Hp|exact Hnr].
    + exact (inv_once _ I).
    + intros p' H. pose proof (inv_fresh_res _ I p' H). lia.
    + intros p' H. pose proof (inv_fresh_log _ I p' H). lia.
    + intros p' H1 H2. rewrite Hp in H1. injection H1 as <-. contradiction.
    + intros p' H1 H2. rewrite Hp in H1. injection H1 as <-. contradiction.
    + rewrite Hraf. intros h [H|[]]. lia.
    + exact (inv_rot _ I).
    + split; [|auto]. unfold mono, resolved. simpl_w.
      split; [lia|]. split; [left; reflexivity|]. intros q H. left. exact H.
Qed.

(** *** setText *)

Lemma setText_shape w newText :
  exists q s1,
    setText (Some newText) w = (update ;; ret (w_next w)) (setText_world w newText q s1) /\
    rng_after (w_rng w) s1 /\
    length q = Nat.max (length (text_content (ts_el (w_ts w)))) (length newText) /\
    (forall m t, nth_error q m = Some t ->
       t_from t = char_at (text_content (ts_el (w_ts w))) m /\
       t_to t = char_at newText m /\ t_char t = None) /\
    (valid_rng (w_rng w) -> Forall task_bounds q).
Proof.
  unfold setText. cbn [bind get_ts gets fresh modify_ts modify emit set_ts set_next set_log
    w_ts w_next w_log w_rot w_rng w_raf w_timers w_fulfilled w_thens w_micro
    with_resolve ts_el ts_frameRequest ts_frame ts_queue ts_resolve].
  unfold bind at 1. match goal with |- context [build_queue ?a ?b ?c ?d ?W] =>
    destruct (build_queue_shape a b c d W) as (q & s1 & Eq & Ha & Hl & Hf & Hb);
    rewrite Eq end.
  exists q, s1. split.
  - reflexivity.
  - split; [exact Ha|]. split; [exact Hl|]. split; [exact Hf|exact Hb].
Qed.

Lemma Forall_of_nth {A} (P : A -> Prop) (l : list A) :
  (forall m x, nth_error l m = Some x -> P x) -> Forall P l.
Proof.
  intro H. apply Forall_forall. intros x Hx.
  destruct (In_nth_error l x Hx) as [m Hm]. exact (H m x Hm).
Qed.

Lemma inv_raf_cancel w :
  inv w -> cancel_list (ts_frameRequest (w_ts w)) (w_raf w) = [].
Proof.
  intro I. destruct (inv_raf _ I) as [E|(h & E & F)]; rewrite E.
  - destruct (ts_frameRequest (w_ts w)); reflexivity.
  - rewrite F. simpl. rewrite Nat.eqb_refl. reflexivity.
Qed.

Lemma setText_world_inv w s q s1 :
  inv w -> rng_after (w_rng w) s1 ->
  (forall m t, nth_error q m = Some t -> t_char t = None) ->
  Forall task_bounds q ->
  inv (setText_world w s q s1) /\ mono w (setText_world w s q s1) /\
  w_raf (setText_world w s q s1) = [] /\
  ~ resolved (w_next w) (setText_world w s q s1).
Proof.
  intros I Ha Hc Hb.
  assert (Hr : forall p, resolved p (setText_world w s q s1) <-> resolved p w).
  { intro p. unfold resolved, setText_world. simpl_w. rewrite in_app_iff. simpl.
    split; [intros [H|[H|[]]]; [exact H|discriminate]|intro H; left; exact H]. }
  assert (Hn : ~ resolved (w_next w) (setText_world w s q s1)).
  { rewrite Hr. intro H. pose proof (inv_fresh_log _ I _ H). lia. }
  split; [|split; [|split; [unfold setText_world; simpl_w; apply inv_raf_cancel; exact I|exact Hn]]].
  - constructor; unfold setText_world; simpl_w.
    + eapply valid_after; [exact (inv_rng _ I)|exact Ha].
    + apply Forall_of_nth. intros m t H. unfold char_ok. rewrite (Hc m t H). exact Logic.I.
    + exact Hb.
    + lia.
    + left. apply inv_raf_cancel. exact I.
    + rewrite inv_raf_cancel by exact I. intro H. contradiction.
    + intro p. unfold resolve_count. simpl_w. rewrite count_emit_other by discriminate.
      exact (inv_once _ I p).
    + intros p H. injection H as <-. lia.
    + intros p H. apply Hr in H. pose proof (inv_fresh_log _ I _ H). lia.
    + intros p H1 H2. injection H1 as <-. contradiction.
    + intros p H1 H2. injection H1 as <-. contradiction.
    + rewrite inv_raf_cancel by exact I. intros h [].
    + exact (inv_rot _ I).
  - split; [unfold setText_world; simpl_w; lia|]. split.
    + right. exists (w_next w). unfold setText_world. simpl_w. split; [reflexivity|lia].
    + intros p H. left. apply Hr. exact H.
Qed.

Lemma setText_inv w s :
  inv w ->
  exists w', setText (Some s) w = Ok (w_next w) w' /\ inv w' /\ mono w w' /\
    w_rot w' = w_rot w /\ w_timers w' = w_timers w /\
    ts_resolve (w_ts w') = Some (w_next w).
Proof.
  intro I.
  destruct (setText_shape w s) as (q & s1 & Eq & Ha & Hl & Hf & Hb).
  destruct (setText_world_inv w s q s1 I Ha) as (I6 & M6 & R6 & N6).
  { intros m t H. apply (Hf m t H). }
  { apply Hb. exact (inv_rng _ I). }
  destruct (update_inv (setText_world w s q s1) (w_next w) I6 R6 eq_refl N6)
    as (w' & Eu & I' & M' & Er & Et & Eres).
  exists w'. rewrite Eq. unfold bind. rewrite Eu.
  split; [reflexivity|]. split; [exact I'|]. split; [eapply mono_trans; eassumption|].
  split; [exact Er|]. split; [exact Et|]. exact Eres.
Qed.

(** *** Every event keeps the invariant *)

Lemma continuation_ok p w : exists w', continuation p w = Ok tt w'.
Proof.
  cbv [continuation bind emit modify set_timeout fresh get_rot gets ret put_rot].
  simpl_w. destruct (w_rot w); eexists; reflexivity.
Qed.

Lemma run_jobs_ok l w : exists w', run_jobs l w = Ok tt w'.
Proof.
  revert w. induction l as [|p l IH]; intro w; simpl.
  - exists w. reflexivity.
  - unfold bind at 1. destruct (continuation_ok p w) as (w1 & E). rewrite E. apply IH.
Qed.

Lemma drain_inv w : inv w -> exists w', drain w = Ok tt w' /\ inv w' /\ mono w w'.
Proof.
  intro I. unfold drain, bind at 1, gets.
  unfold bind at 1, modify.
  destruct (run_jobs_ok (w_micro w) (set_promises (w_fulfilled w) (w_thens w) [] w)) as (w' & E).
  rewrite E. exists w'. split; [reflexivity|].
  apply (benign_inv w w' I). apply (benign_drain w tt w'). unfold drain, bind, gets, modify.
  exact E.
Qed.

Lemma inv_clear_raf w : inv w -> inv (set_raf [] w).
Proof.
  intro I. destruct I. constructor; unfold resolve_count, resolved in *; simpl_w; auto.
  - intros p H1 H2. destruct (inv_done0 p H1 H2) as [_ H]. auto.
  - intros h [].
Qed.

Lemma fire_frame_inv w :
  inv w -> exists w', fire_frame w = Ok tt w' /\ inv w' /\ mono w w' /\ w_rot w' = w_rot w.
Proof.
  intro I. unfold fire_frame, bind at 1, gets. unfold bind at 1, modify.
  destruct (inv_raf _ I) as [E|(h & E & F)]; rewrite E.
  - exists (set_raf [] w). split; [reflexivity|]. split; [apply inv_clear_raf; exact I|].
    split; [|reflexivity]. unfold mono, resolved. simpl_w. split; [lia|].
    split; [left; reflexivity|]. intros q H. left. exact H.
  - destruct (inv_pending _ I) as (p & Hp & Hn); [rewrite E; discriminate|].
    destruct (update_inv (set_raf [] w) p (inv_clear_raf _ I) eq_refl Hp Hn)
      as (w' & Eu & I' & M' & Er & _ & _).
    exists w'. simpl. unfold bind. rewrite Eu. split; [reflexivity|].
    split; [exact I'|]. split; [|exact Er].
    eapply mono_trans; [|exact M']. unfold mono, resolved. simpl_w. split; [lia|].
    split; [left; reflexivity|]. intros q H. left. exact H.
Qed.

Lemma inv_set_rot w r :
  inv w -> r_words r <> [] -> (r_currentIndex r < length (r_words r))%nat ->
  inv (set_rot (Some r) w) /\ mono w (set_rot (Some r) w).
Proof.
  intros I H1 H2. split.
  - destruct I. constructor; simpl_w; auto.
    intros r' H. injection H as <-. auto.
  - unfold mono, resolved. simpl_w. split; [lia|].
    split; [left; reflexivity|]. intros q H. left. exact H.
Qed.

Lemma next_inv w : inv w -> exists w', next w = Ok tt w' /\ inv w' /\ mono w w'.
Proof.
  intro I. unfold next, bind at 1, get_rot, gets.
  destruct (w_rot w) as [r|] eqn:Er.
  2:{ exists w. split; [reflexivity|]. split; [exact I|apply mono_refl]. }
  destruct (inv_rot _ I r Er) as [Hne Hlt].
  destruct (nth_error (r_words r) (r_currentIndex r)) as [word|] eqn:Ew.
  2:{ apply nth_error_None in Ew. lia. }
  destruct (setText_inv w word I) as (w1 & E1 & I1 & M1 & R1 & _ & _).
  unfold bind at 1. rewrite E1.
  unfold bind at 1.
  destruct (register_then (w_next w) w1) as [u w2|] eqn:E2.
  2:{ unfold register_then, modify in E2. discriminate. }
  assert (B2 : benign w1 w2) by exact (benign_register_then _ _ _ _ E2).
  destruct (benign_inv _ _ I1 B2) as [I2 M2].
  unfold bind at 1, get_rot, gets.
  destruct (w_rot w2) as [r2|] eqn:Er2.
  2:{ exists w2. split; [reflexivity|]. split; [exact I2|eapply mono_trans; eassumption]. }
  destruct (inv_rot _ I2 r2 Er2) as [Hne2 Hlt2].
  set (i := Nat.modulo (S (r_currentIndex r2)) (length (r_words r2))).
  assert (Hi : (i < length (r_words r2))%nat).
  { apply Nat.mod_upper_bound. destruct (r_words r2); [contradiction|discriminate]. }
  destruct (inv_set_rot w2 (with_index i r2) I2 Hne2 Hi) as [I3 M3].
  unfold bind at 1, put_rot, modify.
  exists (set_log (w_log (set_rot (Some (with_index i r2)) w2) ++ [EIndex i])
            (set_rot (Some (with_index i r2)) w2)).
  split; [reflexivity|].
  destruct (benign_inv _ _ I3 (benign_emit (EIndex i) ltac:(discriminate) _ tt _ eq_refl))
    as [I4 M4].
  split; [exact I4|].
  eapply mono_trans; [exact M1|]. eapply mono_trans; [exact M2|].
  eapply mono_trans; [exact M3|exact M4].
Qed.

Lemma fire_timer_inv t w : inv w -> exists w', fire_timer t w = Ok tt w' /\ inv w' /\ mono w w'.
Proof.
  intro I. unfold fire_timer, bind at 1, gets.
  destruct (existsb (Nat.eqb t) (w_timers w)).
  - unfold bind at 1, modify.
    assert (B : benign w (set_timers (remove_id t (w_timers w)) w)).
    { benign_split. split; [reflexivity|]. intros r' H'. exists r'. auto. }
    destruct (benign_inv _ _ I B) as [I1 M1].
    destruct (next_inv _ I1) as (w' & E & I' & M').
    exists w'. split; [exact E|]. split; [exact I'|]. exact (mono_trans _ _ _ M1 M').
  - exists w. split; [reflexivity|]. split; [exact I|apply mono_refl].
Qed.

Lemma stop_inv w : inv w -> exists w', stop w = Ok tt w' /\ inv w' /\ mono w w'.
Proof.
  intro I. unfold stop, bind at 1, get_rot, gets.
  destruct (w_rot w) as [r|] eqn:Er.
  - exists (set_timers (cancel_list (r_timeoutId r) (w_timers w)) w). split; [reflexivity|].
    apply (benign_inv _ _ I). apply (benign_clear_timeout (r_timeoutId r) w tt). reflexivity.
  - exists w. split; [reflexivity|]. split; [exact I|apply mono_refl].
Qed.

Lemma then_drain w (m : M unit) :
  (exists w1, m w = Ok tt w1 /\ inv w1 /\ mono w w1) ->
  exists w', (m ;; drain) w = Ok tt w' /\ inv w' /\ mono w w'.
Proof.
  intros (w1 & E1 & I1 & M1). unfold bind at 1. rewrite E1.
  destruct (drain_inv _ I1) as (w' & E & I' & M'). exists w'.
  split; [exact E|]. split; [exact I'|]. eapply mono_trans; eassumption.
Qed.

Lemma handle_inv_ex e w :
  inv w -> exists w', handle e w = Ok tt w' /\ inv w' /\ mono w w'.
Proof.
  intro I. unfold handle. apply then_drain. destruct e as [s| |t|].
  - destruct (setText_inv w s I) as (w1 & E & I1 & M1 & _).
    exists w1. unfold bind. rewrite E. auto.
  - destruct (fire_frame_inv w I) as (w1 & E & I1 & M1 & _). eauto.
  - apply fire_timer_inv. exact I.
  - apply stop_inv. exact I.
Qed.

Lemma handle_inv e w w' : inv w -> handle e w = Ok tt w' -> inv w' /\ mono w w'.
Proof.
  intros I H. destruct (handle_inv_ex e w I) as (w1 & E & I1 & M1).
  rewrite H in E. injection E as ->. auto.
Qed.

Lemma init_inv txt rng : valid_rng rng -> inv (init_world txt rng).
Proof.
  intro Hv. constructor; unfold resolve_count, resolved; simpl_w; try lia; auto;
    try (intros; discriminate); try (intros ? []);
    try (intro H; exfalso; apply H; reflexivity).
Qed.

Lemma construct_inv words iv txt rng w :
  valid_rng rng -> (construct words iv ;; drain) (init_world txt rng) = Ok tt w -> inv w.
Proof.
  intros Hv H. destruct words as [|w0 ws].
  - vm_compute in H. discriminate.
  - set (r := mk_rot (w0 :: ws) 0 (match iv with Some v => v | None => 3000 end) None).
    destruct (inv_set_rot (init_world txt rng) r (init_inv txt rng Hv)) as [I1 _].
    + discriminate.
    + simpl. lia.
    + destruct (next_inv _ I1) as (w1 & E1 & I2 & _).
      destruct (drain_inv _ I2) as (w2 & E2 & I3 & _).
      assert (Hc : (construct (w0 :: ws) iv ;; drain) (init_world txt rng) = Ok tt w2).
      { unfold construct, bind at 1. unfold bind at 1, put_rot, modify.
        unfold bind at 1, modify_ts, modify. unfold start.
        change (next (set_ts (fun ts => new_scrambler (ts_el ts))
                  (set_rot (Some r) (init_world txt rng))) = Ok tt w1) in E1.
        subst r. rewrite E1. exact E2. }
      rewrite H in Hc. injection Hc as ->. exact I3.
Qed.

Lemma reachable_inv w : reachable w -> inv w.
Proof.
  induction 1.
  - apply init_inv. assumption.
  - eapply construct_inv; eassumption.
  - eapply handle_inv; eassumption.
Qed.

(** *** What one update does *)

Lemma update_spec w p :
  ts_resolve (w_ts w) = Some p ->
  let fr := ts_frame (w_ts w) in
  let q := ts_queue (w_ts w) in
  exists w',
    update w = Ok tt w' /\
    rng_after (w_rng w) (w_rng w') /\
    Forall2 same_task q (ts_queue (w_ts w')) /\
    length (ts_el (w_ts w')) = length q /\
    (forall i t t', nth_error q i = Some t -> nth_error (ts_queue (w_ts w')) i = Some t' ->
        nth_error (ts_el (w_ts w')) i = Some (emit_piece fr t t') /\
        (t_end t <= fr \/ fr < t_start t -> t' = t)) /\
    (valid_rng (w_rng w) -> Forall char_ok q ->
       Forall char_ok (ts_queue (w_ts w')) /\
       forall i t', nth_error (ts_queue (w_ts w')) i = Some t' -> t_start t' <= fr < t_end t' ->
         exists g, t_char t' = Some g /\ In g glyphs) /\
    ts_resolve (w_ts w') = Some p /\ w_rot w' = w_rot w /\ w_timers w' = w_timers w /\
    ((Forall (fun t => t_end t <= fr) q /\ ts_frame (w_ts w') = fr /\
      ts_frameRequest (w_ts w') = ts_frameRequest (w_ts w) /\
      w_raf w' = w_raf w /\ w_next w' = w_next w /\ w_log w' = w_log w ++ [EResolve p])
     \/
     (~ Forall (fun t => t_end t <= fr) q /\ ts_frame (w_ts w') = fr + 1 /\
      ts_frameRequest (w_ts w') = Some (w_next w) /\
      w_raf w' = w_raf w ++ [w_next w] /\ w_next w' = S (w_next w) /\ w_log w' = w_log w)).
Proof.
  intros Hp fr q.
  destruct (update_loop_shape fr q w)
    as (out & c & q' & s & Eq & Ha & Hl1 & Hl2 & Hc & Hci & Hs & Hi & Hv).
  rewrite (update_eq _ _ _ _ _ Eq). cbv zeta.
  destruct (Nat.eqb_spec c (length q')) as [Ec|Ec].
  - rewrite Hp. eexists. split; [reflexivity|].
    set (w1 := set_ts (with_el out q') (set_rng s w)).
    destruct (resolve_world_fields p w1) as (F1 & F2 & F3 & F4 & F5 & F6 & F7).
    rewrite F1, F2, F3, F4, F5, F6, F7. unfold w1. simpl_w.
    split; [exact Ha|]. split; [exact Hs|]. split; [lia|]. split; [exact Hi|].
    split; [exact Hv|]. split; [exact Hp|]. split; [reflexivity|]. split; [reflexivity|].
    left. split; [apply Hci; lia|]. auto.
  - eexists. split; [reflexivity|]. simpl_w.
    split; [exact Ha|]. split; [exact Hs|]. split; [lia|]. split; [exact Hi|].
    split; [exact Hv|]. split; [exact Hp|]. split; [reflexivity|]. split; [reflexivity|].
    right. split; [intro H; apply Hci in H; lia|]. auto.
Qed.

Lemma setText_spec w newText :
  let oldText := text_content (ts_el (w_ts w)) in
  exists w',
    setText (Some newText) w = Ok (w_next w) w' /\
    length (ts_queue (w_ts w')) = Nat.max (length oldText) (length newText) /\
    (forall i t, nth_error (ts_queue (w_ts w')) i = Some t ->
       t_from t = char_at oldText i /\ t_to t = char_at newText i) /\
    (valid_rng (w_rng w) -> Forall task_bounds (ts_queue (w_ts w'))).
Proof.
  intro oldText.
  destruct (setText_shape w newText) as (q & s1 & Eq & Ha & Hl & Hf & Hb).
  destruct (update_spec (setText_world w newText q s1) (w_next w) eq_refl)
    as (w' & Eu & _ & Hs & _ & _ & _ & _ & _ & _ & _).
  exists w'. rewrite Eq. unfold bind. rewrite Eu. split; [reflexivity|].
  unfold setText_world in Hs. simpl_w.
  split; [rewrite <- (Forall2_length Hs); exact Hl|]. split.
  - intros i t H.
    destruct (Forall2_nth_r _ _ _ _ _ Hs H) as (t0 & E0 & (A & B & _ & _)).
    destruct (Hf i t0 E0) as (A' & B' & _). rewrite A, B. auto.
  - intro Hv. eapply Forall2_transfer; [exact Hs|exact same_bounds|exact (Hb Hv)].
Qed.

(** *** One animation frame *)

Lemma drain_ok w : exists w', drain w = Ok tt w'.
Proof.
  unfold drain, bind at 1, gets. unfold bind at 1, modify. apply run_jobs_ok.
Qed.

Lemma count_resolved p w w' :
  (forall p, resolve_count p w' = resolve_count p w) -> resolved p w' <-> resolved p w.
Proof. intro H. rewrite !resolved_count, H. reflexivity. Qed.

(** A frame with no callback requested changes nothing of the scrambler. *)
Lemma frame_idle w :
  inv w -> w_raf w = [] ->
  exists w', handle EvFrame w = Ok tt w' /\ inv w' /\ mono w w' /\
    w_ts w' = w_ts w /\ w_raf w' = [] /\ (forall p, resolved p w' <-> resolved p w).
Proof.
  intros I Hr.
  assert (F : fire_frame w = Ok tt (set_raf [] w)).
  { unfold fire_frame, bind, gets, modify. rewrite Hr. reflexivity. }
  destruct (drain_ok (set_raf [] w)) as (w' & E).
  assert (Eh : handle EvFrame w = Ok tt w').
  { unfold handle, bind at 1. rewrite F. exact E. }
  destruct (handle_inv _ _ _ I Eh) as [I' M'].
  destruct (benign_drain _ _ _ E) as (A & _ & C & _ & D & _).
  exists w'. split; [exact Eh|]. split; [exact I'|]. split; [exact M'|].
  split; [exact A|]. split; [exact C|]. intro p'. exact (count_resolved p' _ _ D).
Qed.

(** A frame with the update of the session requested runs that update. *)
Lemma frame_step w p :
  inv w -> w_raf w <> [] -> ts_resolve (w_ts w) = Some p ->
  let fr := ts_frame (w_ts w) in
  let q := ts_queue (w_ts w) in
  exists w', handle EvFrame w = Ok tt w' /\ inv w' /\ mono w w' /\
    ~ resolved p w /\ ts_resolve (w_ts w') = Some p /\
    Forall2 same_task q (ts_queue (w_ts w')) /\
    length (ts_el (w_ts w')) = length q /\
    (forall i t t', nth_error q i = Some t -> nth_error (ts_queue (w_ts w')) i = Some t' ->
       nth_error (ts_el (w_ts w')) i = Some (emit_piece fr t t')) /\
    (forall i t', nth_error (ts_queue (w_ts w')) i = Some t' -> t_start t' <= fr < t_end t' ->
       exists g, t_char t' = Some g /\ In g glyphs) /\
    ((Forall (fun t => t_end t <= fr) q /\ ts_frame (w_ts w') = fr /\
      w_raf w' = [] /\ resolved p w')
     \/
     (~ Forall (fun t => t_end t <= fr) q /\ ts_frame (w_ts w') = fr + 1 /\
      w_raf w' <> [] /\ ~ resolved p w')).
Proof.
  intros I Hne Hp fr q.
  destruct (inv_raf _ I) as [E|(h & E & F)]; [contradiction|].
  destruct (inv_pending _ I Hne) as (p0 & Hp0 & Hn).
  rewrite Hp in Hp0. injection Hp0 as <-.
  destruct (update_spec (set_raf [] w) p Hp)
    as (w1 & Eu & Ha & Hs & Hl & Hi & Hv & Hr & _ & _ & Hcase).
  assert (Ef : fire_frame w = Ok tt w1).
  { unfold fire_frame, bind, gets, modify. rewrite E. cbn [run_frame_callbacks].
    unfold bind. rewrite Eu. reflexivity. }
  destruct (drain_ok w1) as (w' & Ed).
  assert (Eh : handle EvFrame w = Ok tt w').
  { unfold handle, bind at 1. rewrite Ef. exact Ed. }
  destruct (handle_inv _ _ _ I Eh) as [I' M'].
  destruct (benign_drain _ _ _ Ed) as (A & _ & C & _ & D & _).
  pose proof (count_resolved p _ _ D) as Rp.
  exists w'. split; [exact Eh|]. split; [exact I'|]. split; [exact M'|].
  split; [exact Hn|]. rewrite A, C, Rp.
  split; [exact Hr|]. split; [exact Hs|]. split; [exact Hl|].
  split; [intros i t t' H1 H2; exact (proj1 (Hi i t t' H1 H2))|].
  split; [exact (proj2 (Hv (inv_rng _ I) (inv_chars _ I)))|].
  destruct Hcase as [(H1 & H2 & _ & H4 & _ & H6)|(H1 & H2 & _ & H4 & _ & H6)].
  - left. split; [exact H1|]. split; [exact H2|]. split; [exact H4|].
    unfold resolved. rewrite H6. apply in_or_app. right. left. reflexivity.
  - right. split; [exact H1|]. split; [exact H2|].
    split; [rewrite H4; simpl; discriminate|].
    unfold resolved. rewrite H6. exact Hn.
Qed.

Lemma same_task_trans t1 t2 t3 : same_task t1 t2 -> same_task t2 t3 -> same_task t1 t3.
Proof. unfold same_task. intros (A & B & C & D) (A' & B' & C' & D'). repeat split; congruence. Qed.

Lemma same_task_refl t : same_task t t.
Proof. unfold same_task. auto. Qed.

Lemma Forall2_same_trans q1 q2 q3 :
  Forall2 same_task q1 q2 -> Forall2 same_task q2 q3 -> Forall2 same_task q1 q3.
Proof.
  intro H. revert q3. induction H as [|x y l l' Hxy H IH]; intros q3 H3.
  - inversion H3. constructor.
  - inversion H3 as [|a b c d Hab Hcd]; subst. constructor; [eapply same_task_trans; eassumption|].
    apply IH. exact Hcd.
Qed.

Lemma Forall2_same_refl q : Forall2 same_task q q.
Proof. induction q; constructor; [apply same_task_refl|assumption]. Qed.

Lemma run_cons e es w :
  run (e :: es) w = match handle e w with Ok _ w1 => run es w1 | Throw x => Throw x end.
Proof. reflexivity. Qed.

(** A frame event never leaves the session, and the frame counter never
    goes back. *)
Lemma frame_event w p w' :
  inv w -> ts_resolve (w_ts w) = Some p -> handle EvFrame w = Ok tt w' ->
  inv w' /\ ts_resolve (w_ts w') = Some p /\
  Forall2 same_task (ts_queue (w_ts w)) (ts_queue (w_ts w')) /\
  (ts_frame (w_ts w) <= ts_frame (w_ts w'))%Z /\
  (resolved p w -> resolved p w').
Proof.
  intros I Hp H.
  destruct (w_raf w) as [|h l] eqn:Er.
  - destruct (frame_idle w I Er) as (w1 & E & I1 & _ & A & _ & R).
    rewrite H in E. injection E as <-. rewrite A.
    split; [exact I1|]. split; [exact Hp|]. split; [apply Forall2_same_refl|].
    split; [lia|]. intro Hr. apply R. exact Hr.
  - destruct (frame_step w p I ltac:(rewrite Er; discriminate) Hp)
      as (w1 & E & I1 & _ & Hn & Hr & Hs & _ & _ & _ & Hc).
    rewrite H in E. injection E as <-.
    split; [exact I1|]. split; [exact Hr|]. split; [exact Hs|].
    split; [destruct Hc as [(_ & F & _)|(_ & F & _)]; rewrite F; lia|].
    intro R. contradiction.
Qed.

Lemma frames_event w p k wk :
  inv w -> ts_resolve (w_ts w) = Some p -> run (repeat EvFrame k) w = Ok tt wk ->
  inv wk /\ ts_resolve (w_ts wk) = Some p /\
  Forall2 same_task (ts_queue (w_ts w)) (ts_queue (w_ts wk)) /\
  (ts_frame (w_ts w) <= ts_frame (w_ts wk))%Z /\
  (resolved p w -> resolved p wk).
Proof.
  revert w. induction k as [|k IH]; intros w I Hp H.
  - injection H as <-. split; [exact I|]. split; [exact Hp|].
    split; [apply Forall2_same_refl|]. split; [lia|]. auto.
  - cbn [repeat] in H. rewrite run_cons in H.
    destruct (handle EvFrame w) as [u w1|x] eqn:E; [|discriminate].
    destruct u.
    destruct (frame_event w p w1 I Hp E) as (I1 & R1 & S1 & F1 & P1).
    destruct (IH w1 I1 R1 H) as (I2 & R2 & S2 & F2 & P2).
    split; [exact I2|]. split; [exact R2|]. split; [eapply Forall2_same_trans; eassumption|].
    split; [lia|]. auto.
Qed.

(** Position [i] once frozen: every later frame shows its [to]. *)
Lemma frozen_step i t p w :
  inv w -> ts_resolve (w_ts w) = Some p ->
  (exists ti, nth_error (ts_queue (w_ts w)) i = Some ti /\ same_task t ti) ->
  (t_end t <= ts_frame (w_ts w))%Z ->
  (w_raf w <> [] \/ nth_error (ts_el (w_ts w)) i = Some (PText (t_to t))) ->
  exists w', handle EvFrame w = Ok tt w' /\ inv w' /\ ts_resolve (w_ts w') = Some p /\
    (exists ti, nth_error (ts_queue (w_ts w')) i = Some ti /\ same_task t ti) /\
    (ts_frame (w_ts w) <= ts_frame (w_ts w'))%Z /\
    nth_error (ts_el (w_ts w')) i = Some (PText (t_to t)).
Proof.
  intros I Hp (ti & Ei & Si) He Hc.
  destruct (w_raf w) as [|h l] eqn:Er.
  - destruct Hc as [Hc|Hc]; [contradiction|].
    destruct (frame_idle w I Er) as (w1 & E & I1 & _ & A & _ & _).
    exists w1. rewrite A. split; [exact E|]. split; [exact I1|]. split; [exact Hp|].
    split; [exists ti; auto|]. split; [lia|exact Hc].
  - destruct (frame_step w p I ltac:(rewrite Er; discriminate) Hp)
      as (w1 & E & I1 & _ & _ & Hr & Hs & _ & Hi & _ & Hcase).
    destruct (Forall2_nth_l _ _ _ _ _ Hs Ei) as (ti' & Ei' & Si').
    exists w1. split; [exact E|]. split; [exact I1|]. split; [exact Hr|].
    split; [exists ti'; split; [exact Ei'|eapply same_task_trans; eassumption]|].
    split; [destruct Hcase as [(_ & F & _)|(_ & F & _)]; rewrite F; lia|].
    rewrite (Hi i ti ti' Ei Ei'). unfold emit_piece.
    destruct Si as (_ & B & _ & D).
    rewrite D, (proj2 (Z.geb_le _ _) He), B. reflexivity.
Qed.

Lemma frozen_run i t p k : forall w wk,
  inv w -> ts_resolve (w_ts w) = Some p ->
  (exists ti, nth_error (ts_queue (w_ts w)) i = Some ti /\ same_task t ti) ->
  (t_end t <= ts_frame (w_ts w))%Z ->
  (w_raf w <> [] \/ nth_error (ts_el (w_ts w)) i = Some (PText (t_to t))) ->
  run (repeat EvFrame (S k)) w = Ok tt wk ->
  ts_resolve (w_ts wk) = Some p /\ (ts_frame (w_ts w) <= ts_frame (w_ts wk))%Z /\
  nth_error (ts_el (w_ts wk)) i = Some (PText (t_to t)).
Proof.
  induction k as [|k IH]; intros w wk I Hp Ht He Hc H.
  - destruct (frozen_step i t p w I Hp Ht He Hc) as (w1 & E & _ & R1 & _ & F1 & C1).
    cbn [repeat] in H. rewrite run_cons, E in H. injection H as <-. auto.
  - destruct (frozen_step i t p w I Hp Ht He Hc) as (w1 & E & I1 & R1 & T1 & F1 & C1).
    change (run (EvFrame :: repeat EvFrame (S k)) w = Ok tt wk) in H.
    rewrite run_cons, E in H.
    destruct (IH w1 wk I1 R1 T1 ltac:(lia) (or_intror C1) H) as (R2 & F2 & C2).
    split; [exact R2|]. split; [lia|exact C2].
Qed.

(** Liveness: a session whose callback is pending and whose tasks all
    end by frame [fr + k] resolves within [k + 1] frames. *)
Lemma live_run p k : forall w,
  inv w -> ts_resolve (w_ts w) = Some p -> w_raf w <> [] ->
  Forall (fun t => t_end t <= ts_frame (w_ts w) + Z.of_nat k) (ts_queue (w_ts w)) ->
  exists n w', (n <= k)%nat /\ run (repeat EvFrame (S n)) w = Ok tt w' /\
    resolved p w' /\ w_raf w' = [] /\ ts_resolve (w_ts w') = Some p /\
    Forall (fun t => t_end t <= ts_frame (w_ts w')) (ts_queue (w_ts w')).
Proof.
  induction k as [|k IH]; intros w I Hp Hne Hall.
  - destruct (frame_step w p I Hne Hp) as (w1 & E & I1 & _ & _ & Hr & Hs & _ & _ & _ & Hc).
    destruct Hc as [(H1 & H2 & H3 & H4)|(H1 & _)].
    + exists O, w1. split; [lia|]. split; [cbn [repeat]; rewrite run_cons, E; reflexivity|].
      split; [exact H4|]. split; [exact H3|]. split; [exact Hr|].
      destruct (inv_done _ I1 p Hr H4) as [_ F]. exact F.
    + exfalso. apply H1. eapply Forall_impl; [|exact Hall]. intros t Ht. simpl in Ht. lia.
  - destruct (frame_step w p I Hne Hp) as (w1 & E & I1 & _ & _ & Hr & Hs & _ & _ & _ & Hc).
    destruct Hc as [(H1 & H2 & H3 & H4)|(H1 & H2 & H3 & H4)].
    + exists O, w1. split; [lia|]. split; [cbn [repeat]; rewrite run_cons, E; reflexivity|].
      split; [exact H4|]. split; [exact H3|]. split; [exact Hr|].
      destruct (inv_done _ I1 p Hr H4) as [_ F]. exact F.
    + assert (Hall1 : Forall (fun t => t_end t <= ts_frame (w_ts w1) + Z.of_nat k)
                        (ts_queue (w_ts w1))).
      { eapply Forall2_transfer; [exact Hs| |exact Hall].
        intros t t' (_ & _ & _ & D) Ht. rewrite D, H2. lia. }
      destruct (IH w1 I1 Hr H3 Hall1) as (n & w' & Hn & Er & R & A & B & C).
      exists (S n), w'. split; [lia|].
      split; [change (run (EvFrame :: repeat EvFrame (S n)) w = Ok tt w');
              rewrite run_cons, E; exact Er|].
      auto.
Qed.

(** A promise that is neither current nor resolved stays unresolved. *)
Lemma stale_run p es : forall w w',
  inv w -> ts_resolve (w_ts w) <> Some p -> (p < w_next w)%nat -> ~ resolved p w ->
  run es w = Ok tt w' -> ~ resolved p w'.
Proof.
  induction es as [|e es IH]; intros w w' I Hc Hl Hn H.
  - injection H as <-. exact Hn.
  - rewrite run_cons in H.
    destruct (handle e w) as [u w1|x] eqn:E; [|discriminate].
    destruct u. destruct (handle_inv e w w1 I E) as [I1 (M1 & M2 & M3)].
    apply (IH w1 w' I1); [| lia | | exact H].
    + destruct M2 as [M2|(q & M2 & L)]; rewrite M2; [exact Hc|].
      intro Hq. injection Hq as ->. lia.
    + intro R. destruct (M3 p R) as [R'|[R'|R']]; [contradiction|contradiction|lia].
Qed.

(** The event [setText(s)], followed by its microtask checkpoint. *)
Lemma setText_event w s w1 :
  inv w -> handle (EvSetText s) w = Ok tt w1 ->
  let n := w_next w in
  let oldText := text_content (ts_el (w_ts w)) in
  inv w1 /\ mono w w1 /\ ts_resolve (w_ts w1) = Some n /\ (n < w_next w1)%nat /\
  length (ts_queue (w_ts w1)) = Nat.max (length oldText) (length s) /\
  (forall i t, nth_error (ts_queue (w_ts w1)) i = Some t ->
     t_from t = char_at oldText i /\ t_to t = char_at s i) /\
  (forall p, resolved p w1 <-> resolved p w \/ (p = n /\ w_raf w1 = [])) /\
  ((ts_frame (w_ts w1) = 0 /\ w_raf w1 = []) \/
   (ts_frame (w_ts w1) = 1 /\ w_raf w1 = [S n])).
Proof.
  intros I H. cbv zeta.
  destruct (setText_shape w s) as (q & s1 & Eq & Ha & Hl & Hf & Hb).
  destruct (setText_world_inv w s q s1 I Ha) as (I6 & M6 & R6 & N6).
  { intros m t Hm. apply (Hf m t Hm). }
  { apply Hb. exact (inv_rng _ I). }
  destruct (update_spec (setText_world w s q s1) (w_next w) eq_refl)
    as (w' & Eu & _ & Hs & _ & _ & _ & Hr & _ & _ & Hcase).
  assert (Es : setText (Some s) w = Ok (w_next w) w').
  { rewrite Eq. unfold bind. rewrite Eu. reflexivity. }
  assert (Ed : drain w' = Ok tt w1).
  { unfold handle in H. unfold bind at 1 in H. unfold bind at 1 in H. rewrite Es in H. exact H. }
  destruct (handle_inv _ _ _ I H) as [I1 M1].
  destruct (benign_drain _ _ _ Ed) as (A & _ & C & D & Cn & _).
  unfold setText_world in Hs, Hcase, R6. simpl_w.
  rewrite A, C.
  split; [exact I1|]. split; [exact M1|]. split; [exact Hr|].
  split; [destruct Hcase as [(_ & _ & _ & _ & F & _)|(_ & _ & _ & _ & F & _)]; lia|].
  split; [rewrite <- (Forall2_length Hs); exact Hl|].
  split.
  { intros i t Hi. destruct (Forall2_nth_r _ _ _ _ _ Hs Hi) as (t0 & E0 & (A0 & B0 & _ & _)).
    destruct (Hf i t0 E0) as (A' & B' & _). rewrite A0, B0. auto. }
  split.
  - intro p. rewrite (count_resolved p _ _ Cn). unfold resolved.
    destruct Hcase as [(_ & _ & _ & F & _ & G)|(_ & _ & _ & F & _ & G)]; rewrite G, F;
      rewrite R6; rewrite !in_app_iff; simpl.
    + split.
      * intros [[H1|[H1|[]]]|[H1|[]]]; [left; exact H1|discriminate|right; split; [congruence|reflexivity]].
      * intros [H1|(-> & _)]; [left; left; exact H1|right; left; reflexivity].
    + split.
      * intros [H1|[H1|[]]]; [left; exact H1|discriminate].
      * intros [H1|(_ & H1)]; [left; exact H1|discriminate].
  - destruct Hcase as [(_ & F & _ & G & _)|(_ & F & _ & G & _)]; rewrite F, G, R6.
    + left. auto.
    + right. auto.
Qed.

Lemma run_inv es : forall w w', inv w -> run es w = Ok tt w' -> inv w'.
Proof.
  induction es as [|e es IH]; intros w w' I H.
  - injection H as <-. exact I.
  - rewrite run_cons in H. destruct (handle e w) as [u w1|x] eqn:E; [|discriminate].
    destruct u. apply (IH w1); [exact (proj1 (handle_inv e w w1 I E))|exact H].
Qed.

Lemma count_one p w : inv w -> resolved p w -> resolve_count p w = 1%nat.
Proof.
  intros I H. apply resolved_count in H. pose proof (inv_once _ I p). lia.
Qed.

Lemma valid_half : valid_rng half.
Proof. intro n. unfold half. split; [unfold Qle|unfold Qlt]; simpl; lia. Qed.

Lemma reachable_ex_ab : reachable ex_ab.
Proof. apply reach_init. exact valid_half. Qed.

Lemma reachable_ex_ab1 : reachable ex_ab1.
Proof.
  apply (reach_step (EvSetText []) ex_ab); [exact reachable_ex_ab|vm_compute; reflexivity].
Qed.

(** *** Text of a completed render *)

Lemma skipn_nth (s : jsstr) k c : nth_error s k = Some c -> skipn k s = c :: skipn (S k) s.
Proof.
  revert k. induction s as [|x s IH]; intros [|k] H; try discriminate.
  - injection H as <-. reflexivity.
  - simpl in H. simpl. rewrite (IH k H). reflexivity.
Qed.

Lemma concat_char_at (s : jsstr) n : forall k, (length s <= k + n)%nat ->
  concat (map (char_at s) (seq k n)) = skipn k s.
Proof.
  induction n as [|n IH]; intros k H.
  - simpl. symmetry. apply skipn_all2. lia.
  - cbn [seq map concat]. rewrite (IH (S k)) by lia. unfold char_at.
    destruct (nth_error s k) as [c|] eqn:E.
    + rewrite (skipn_nth s k c E). reflexivity.
    + apply nth_error_None in E. rewrite !skipn_all2 by lia. reflexivity.
Qed.

Lemma to_seq (s : jsstr) q : forall k,
  (forall i t, nth_error q i = Some t -> t_to t = char_at s (k + i)) ->
  map t_to q = map (char_at s) (seq k (length q)).
Proof.
  induction q as [|t q IH]; intros k H; [reflexivity|].
  cbn [map length seq]. f_equal.
  - rewrite (H O t eq_refl). f_equal. lia.
  - apply IH. intros i t' Hi. rewrite (H (S i) t' Hi). f_equal. lia.
Qed.

Lemma map_to_same q q' : Forall2 same_task q q' -> map t_to q' = map t_to q.
Proof. induction 1 as [|t t' q q' (_ & B & _) _ IH]; simpl; congruence. Qed.

Lemma render_text q :
  text_content (map (fun t => PText (t_to t)) q) = concat (map t_to q) /\
  inner_html (map (fun t => PText (t_to t)) q) = concat (map t_to q).
Proof. unfold text_content, inner_html. rewrite !map_map. split; reflexivity. Qed.

(** *** The rotator's step *)

Lemma setText_log w s :
  exists w', setText (Some s) w = Ok (w_next w) w' /\ w_rot w' = w_rot w /\
    (w_log w' = w_log w ++ [EBegin (w_next w) s] \/
     w_log w' = w_log w ++ [EBegin (w_next w) s; EResolve (w_next w)]).
Proof.
  destruct (setText_shape w s) as (q & s1 & Eq & _).
  destruct (update_spec (setText_world w s q s1) (w_next w) eq_refl)
    as (w' & Eu & _ & _ & _ & _ & _ & _ & Er & _ & Hcase).
  exists w'. rewrite Eq. unfold bind. rewrite Eu. split; [reflexivity|].
  unfold setText_world in Er, Hcase. simpl_w. split; [exact Er|].
  destruct Hcase as [(_ & _ & _ & _ & _ & G)|(_ & _ & _ & _ & _ & G)]; rewrite G.
  - right. rewrite <- app_assoc. reflexivity.
  - left. reflexivity.
Qed.

Lemma register_then_fields p w :
  exists w', register_then p w = Ok tt w' /\ w_rot w' = w_rot w /\ w_log w' = w_log w.
Proof.
  unfold register_then, modify. destruct (existsb _ _); eexists; split; try reflexivity; auto.
Qed.

Lemma next_spec w r word :
  w_rot w = Some r -> nth_error (r_words r) (r_currentIndex r) = Some word ->
  let i := Nat.modulo (S (r_currentIndex r)) (length (r_words r)) in
  exists w', next w = Ok tt w' /\ w_rot w' = Some (with_index i r) /\
    (w_log w' = w_log w ++ [EBegin (w_next w) word; EIndex i] \/
     w_log w' = w_log w ++ [EBegin (w_next w) word; EResolve (w_next w); EIndex i]).
Proof.
  intros Er Ew i.
  destruct (setText_log w word) as (w1 & E1 & R1 & L1).
  destruct (register_then_fields (w_next w) w1) as (w2 & E2 & R2 & L2).
  unfold next, bind at 1, get_rot, gets. rewrite Er.
  unfold bind at 1. rewrite Ew, E1. unfold bind at 1. rewrite E2.
  unfold bind at 1, gets. rewrite R2, R1, Er.
  eexists. split; [reflexivity|]. simpl_w. split; [reflexivity|].
  rewrite L2. destruct L1 as [L1|L1]; rewrite L1; [left|right]; rewrite <- app_assoc; reflexivity.
Qed.

(** ** The claims *)

(** *** Sessions of setText *)

(** C2: for every element content and every argument [newText],
    [setText(newText)] returns and leaves a queue of exactly
    [max(oldText.length, newText.length)] tasks, where [oldText] is the
    element's text; task [i] has [from = oldText[i] || ''] and
    [to = newText[i] || '']. *)
Theorem setText_session_shape (w : world) (newText : jsstr) :
  let oldText := text_content (ts_el (w_ts w)) in
  exists w',
    setText (Some newText) w = Ok (w_next w) w' /\
    length (ts_queue (w_ts w')) = Nat.max (length oldText) (length newText) /\
    (forall i t, nth_error (ts_queue (w_ts w')) i = Some t ->
       t_from t = char_at oldText i /\ t_to t = char_at newText i).
Proof.
  intro oldText. destruct (setText_spec w newText) as (w' & E & L & F & _).
  exists w'. auto.
Qed.

(** C7: in every reachable state, every task of the queue has an integer
    [start] in [[0, 40)] and [end] in [[start, start + 40)], so [end < 80]. *)
Theorem task_timing_bounds (w : world) :
  reachable w ->
  Forall (fun t => (0 <= t_start t < 40 /\ t_start t <= t_end t < t_start t + 40) /\
                   t_end t < 80) (ts_queue (w_ts w)).
Proof.
  intro R. pose proof (inv_bounds _ (reachable_inv w R)) as B.
  eapply Forall_impl; [|exact B]. unfold task_bounds. intros t Ht. lia.
Qed.

Lemma task_timing_bounds_witness :
  reachable ex_ab1 /\
  Forall (fun t => (0 <= t_start t < 40 /\ t_start t <= t_end t < t_start t + 40) /\
                   t_end t < 80) (ts_queue (w_ts ex_ab1)).
Proof.
  split; [exact reachable_ex_ab1|]. apply task_timing_bounds. exact reachable_ex_ab1.
Defined.

(** *** What one update renders *)

(** C8: let an update run with [Math.random()] in [[0, 1)] and every
    [char] already drawn a glyph (every update the program runs
    satisfies both, and the bounds of C7: the host's [Math.random] and
    the invariant of reachable states). A position with [start <= frame < end] is rendered
    as a [scramble-char] span around one character of [this.chars],
    never [undefined]. A position with [frame < start] is rendered as its
    [from]. *)
Theorem scramble_char_in_glyphs (w : world) (p : nat) :
  valid_rng (w_rng w) -> Forall char_ok (ts_queue (w_ts w)) ->
  Forall task_bounds (ts_queue (w_ts w)) -> ts_resolve (w_ts w) = Some p ->
  let fr := ts_frame (w_ts w) in
  exists w', update w = Ok tt w' /\
    forall i t, nth_error (ts_queue (w_ts w)) i = Some t ->
      (t_start t <= fr < t_end t ->
         exists g, In g glyphs /\ nth_error (ts_el (w_ts w')) i = Some (PScr (Some g)) /\
           piece_html (PScr (Some g)) =
             js "<span class=" ++ quote ++ js "scramble-char" ++ quote ++ js ">" ++ [g]
             ++ js "</span>") /\
      (fr < t_start t -> nth_error (ts_el (w_ts w')) i = Some (PText (t_from t))).
Proof.
  intros Hv Hc Hb Hp fr.
  destruct (update_spec w p Hp) as (w' & Eu & _ & Hs & _ & Hi & Hg & _).
  exists w'. split; [exact Eu|]. intros i t Ht.
  destruct (Forall2_nth_l _ _ _ _ _ Hs Ht) as (t' & Ht' & (_ & _ & C & D)).
  destruct (Hi i t t' Ht Ht') as [Ei _]. unfold emit_piece in Ei. fold fr in Ei.
  split.
  - intro Hr. rewrite (proj2 (geb_false fr (t_end t)) ltac:(lia)),
      (proj2 (Z.geb_le fr (t_start t)) ltac:(lia)) in Ei.
    destruct (proj2 (Hg Hv Hc) i t' Ht' ltac:(lia)) as (g & G & Gin).
    exists g. rewrite Ei, G. split; [exact Gin|]. split; reflexivity.
  - intro Hr. rewrite Forall_forall in Hb. pose proof (Hb t (nth_error_In _ _ Ht)) as Bt.
    unfold task_bounds in Bt.
    rewrite (proj2 (geb_false fr (t_end t)) ltac:(lia)),
      (proj2 (geb_false fr (t_start t)) ltac:(lia)) in Ei.
    exact Ei.
Qed.

Lemma scramble_char_in_glyphs_witness :
  ts_resolve (w_ts ex_ab1) = Some O /\
  exists w', update ex_ab1 = Ok tt w' /\
    forall i t, nth_error (ts_queue (w_ts ex_ab1)) i = Some t ->
      ts_frame (w_ts ex_ab1) < t_start t ->
      nth_error (ts_el (w_ts w')) i = Some (PText (t_from t)).
Proof.
  assert (Hp : ts_resolve (w_ts ex_ab1) = Some O) by (vm_compute; reflexivity).
  split; [exact Hp|].
  pose proof (reachable_inv _ reachable_ex_ab1) as I.
  destruct (scramble_char_in_glyphs ex_ab1 O (inv_rng _ I) (inv_chars _ I) (inv_bounds _ I) Hp)
    as (w' & E & H).
  exists w'. split; [exact E|]. intros i t Ht. exact (proj2 (H i t Ht)).
Defined.

(** C6: let a frame callback of the current session be pending at frame
    [fr] (the next update runs at [fr]), and let position [i] hold a task
    with [end <= fr]. After every number [k + 1] of animation frames
    that follow, the session is still the current one, the frame counter
    has not gone back, and position [i] shows the task's [to]. *)
Theorem frozen_position_emits_to (w : world) (i : nat) (t : task) (k : nat) (wk : world) :
  reachable w -> w_raf w <> [] ->
  nth_error (ts_queue (w_ts w)) i = Some t -> t_end t <= ts_frame (w_ts w) ->
  run (repeat EvFrame (S k)) w = Ok tt wk ->
  ts_resolve (w_ts wk) = ts_resolve (w_ts w) /\
  ts_frame (w_ts w) <= ts_frame (w_ts wk) /\
  nth_error (ts_el (w_ts wk)) i = Some (PText (t_to t)).
Proof.
  intros R Hne Ht He H. pose proof (reachable_inv w R) as I.
  destruct (inv_pending _ I Hne) as (p & Hp & _).
  destruct (frozen_run i t p k w wk I Hp (ex_intro _ t (conj Ht (same_task_refl t))) He
              (or_introl Hne) H) as (A & B & C).
  rewrite A, Hp. auto.
Qed.

Lemma reachable_ex_ab40 : reachable ex_ab40.
Proof.
  assert (H : forall n w w', reachable w -> run (repeat EvFrame n) w = Ok tt w' -> reachable w').
  { induction n as [|n IH]; intros w w' R E.
    - injection E as <-. exact R.
    - cbn [repeat] in E. rewrite run_cons in E.
      destruct (handle EvFrame w) as [[] w1|x] eqn:E1; [|discriminate].
      exact (IH w1 w' (reach_step _ _ _ R E1) E). }
  apply (H 39%nat ex_ab1); [exact reachable_ex_ab1|vm_compute; reflexivity].
Defined.

Lemma frozen_position_emits_to_witness :
  nth_error (ts_queue (w_ts ex_ab40)) O = Some (mk_task (js "A") [] 20 40 (Some 123%N)) /\
  ts_frame (w_ts ex_ab40) = 40 /\
  nth_error (ts_el (w_ts ex_ab2)) O = Some (PText []).
Proof.
  assert (Ht : nth_error (ts_queue (w_ts ex_ab40)) O = Some (mk_task (js "A") [] 20 40 (Some 123%N)))
    by (vm_compute; reflexivity).
  assert (Hf : ts_frame (w_ts ex_ab40) = 40) by (vm_compute; reflexivity).
  split; [exact Ht|]. split; [exact Hf|].
  destruct (frozen_position_emits_to ex_ab40 O _ O ex_ab2 reachable_ex_ab40
              ltac:(vm_compute; discriminate) Ht ltac:(rewrite Hf; simpl; lia)
              ltac:(vm_compute; reflexivity)) as (_ & _ & C).
  exact C.
Defined.

Lemma html_plain_text s : forallb html_plain_char s = true -> html_text_content s = Some s.
Proof.
  unfold html_text_content. induction s as [|c s IH]; intro H; [reflexivity|].
  cbn [forallb] in H. apply andb_true_iff in H. destruct H as [Hc Hs].
  cbn [html_go]. rewrite Hc.
  replace (c =? 60)%N with false
    by (unfold html_plain_char in Hc; destruct (c =? 60)%N; [discriminate|reflexivity]).
  rewrite (IH Hs). reflexivity.
Qed.

(** C5: a session started by [setText(s)] in a reachable state and then
    run by animation frames only writes, once its promise is resolved,
    exactly [s] to [innerHTML]: every task contributes its [to]. The
    element's rendered text is that of the HTML parse of [s]; it is [s]
    when [s] has no [<], [&], CR or NUL. In particular, on an element
    showing "AB", [setText('')] builds two tasks, both with an empty
    [to]. (The witness: for [s = '<b>x'] the parse renders "x".) *)
Theorem completed_session_renders_html (w : world) (s : jsstr) (w1 : world) (k : nat) (w2 : world) :
  reachable w -> handle (EvSetText s) w = Ok tt w1 ->
  run (repeat EvFrame k) w1 = Ok tt w2 -> resolved (w_next w) w2 ->
  inner_html (ts_el (w_ts w2)) = s /\
  (forallb html_plain_char s = true -> html_text_content (inner_html (ts_el (w_ts w2))) = Some s) /\
  (text_content (ts_el (w_ts w)) = js "AB" -> s = [] ->
     length (ts_queue (w_ts w1)) = 2%nat /\ Forall (fun t => t_to t = []) (ts_queue (w_ts w1))).
Proof.
  intros R H1 H2 Hr. pose proof (reachable_inv w R) as I.
  destruct (setText_event w s w1 I H1) as (I1 & _ & R1 & _ & Hl & Hft & _).
  destruct (frames_event w1 (w_next w) k w2 I1 R1 H2) as (I2 & R2 & S2 & _ & _).
  rewrite (inv_render_done _ I2 _ R2 Hr). destruct (render_text (ts_queue (w_ts w2))) as [_ B].
  assert (E : concat (map t_to (ts_queue (w_ts w2))) = s).
  { rewrite (map_to_same _ _ S2).
    rewrite (to_seq s _ O) by (intros i t Hi; exact (proj2 (Hft i t Hi))).
    rewrite concat_char_at; [reflexivity|]. rewrite Hl. lia. }
  rewrite B, E. split; [reflexivity|]. split; [apply html_plain_text|].
  intros Ho Hs. rewrite Ho, Hs in Hl. split; [exact Hl|].
  apply Forall_of_nth. intros m t Hm. rewrite (proj2 (Hft m t Hm)), Hs.
  unfold char_at. destruct m; reflexivity.
Qed.

Lemma completed_session_renders_html_witness :
  inner_html (ts_el (w_ts ex_bx2)) = js "<b>x" /\
  html_text_content (inner_html (ts_el (w_ts ex_bx2))) = Some (js "x") /\
  length (ts_queue (w_ts ex_ab1)) = 2%nat.
Proof.
  assert (Hr : resolved O ex_bx2).
  { apply (proj2 (resolved_count _ _)).
    assert (E : resolve_count O ex_bx2 = 1%nat) by (vm_compute; reflexivity). rewrite E. lia. }
  destruct (completed_session_renders_html ex_bx (js "<b>x") ex_bx1 40 ex_bx2
              (reach_init [] half valid_half)
              ltac:(vm_compute; reflexivity) ltac:(vm_compute; reflexivity) Hr) as (A & _ & _).
  assert (Hab : resolved O ex_ab2).
  { apply (proj2 (resolved_count _ _)).
    assert (E : resolve_count O ex_ab2 = 1%nat) by (vm_compute; reflexivity). rewrite E. lia. }
  destruct (completed_session_renders_html ex_ab [] ex_ab1 40 ex_ab2 reachable_ex_ab
              ltac:(vm_compute; reflexivity) ltac:(vm_compute; reflexivity) Hab) as (_ & _ & C).
  split; [exact A|]. split; [rewrite A; vm_compute; reflexivity|].
  exact (proj1 (C ltac:(vm_compute; reflexivity) eq_refl)).
Defined.

(** C3: let [setText(s)] be called in a reachable state while a frame
    callback of the session of promise [p] is pending. The call cancels
    that callback (its handle [h] is in [frameRequest] and no longer
    pending). The new session's first update runs at frame 0: afterwards
    the frame is 0 with nothing pending, or 1 with exactly one new
    callback. [this.resolve] now settles the new promise, which is not
    [p]. Every new task takes its [from] from the text shown at the call.
    Whatever events follow, [p] is never resolved. *)
Theorem setText_interrupts_session (w : world) (s : jsstr) (p : nat) (w1 : world) :
  reachable w -> w_raf w <> [] -> ts_resolve (w_ts w) = Some p ->
  handle (EvSetText s) w = Ok tt w1 ->
  (exists h, w_raf w = [h] /\ ts_frameRequest (w_ts w) = Some h /\ ~ In h (w_raf w1)) /\
  ((ts_frame (w_ts w1) = 0 /\ w_raf w1 = []) \/
   (ts_frame (w_ts w1) = 1 /\ exists h', w_raf w1 = [h'] /\ ts_frameRequest (w_ts w1) = Some h')) /\
  ts_resolve (w_ts w1) = Some (w_next w) /\ p <> w_next w /\
  (forall i t, nth_error (ts_queue (w_ts w1)) i = Some t ->
     t_from t = char_at (text_content (ts_el (w_ts w))) i) /\
  (forall es w2, run es w1 = Ok tt w2 -> ~ resolved p w2).
Proof.
  intros R Hne Hp H. pose proof (reachable_inv w R) as I.
  destruct (inv_raf _ I) as [E|(h & E & F)]; [contradiction|].
  destruct (inv_pending _ I Hne) as (p0 & Hp0 & Hn). rewrite Hp in Hp0. injection Hp0 as <-.
  pose proof (inv_fresh_res _ I p Hp) as Lp.
  pose proof (inv_raf_fresh _ I h ltac:(rewrite E; left; reflexivity)) as Lh.
  destruct (setText_event w s w1 I H) as (I1 & _ & R1 & Ln & _ & Hft & Hres & Hfr).
  split.
  { exists h. split; [exact E|]. split; [exact F|].
    destruct Hfr as [(_ & G)|(_ & G)]; rewrite G; [intros []|]. intros [G'|[]]. lia. }
  split.
  { destruct Hfr as [G|(G1 & G2)]; [left; exact G|right; split; [exact G1|]].
    exists (S (w_next w)). split; [exact G2|].
    destruct (inv_raf _ I1) as [G3|(h3 & G3 & G4)]; [rewrite G2 in G3; discriminate|].
    rewrite G2 in G3. injection G3 as <-. exact G4. }
  split; [exact R1|]. split; [lia|].
  split; [intros i t Hi; exact (proj1 (Hft i t Hi))|].
  intros es w2 Hes. apply (stale_run p es w1 w2 I1); [| lia | | exact Hes].
  - rewrite R1. intro Hq. injection Hq as Hq. lia.
  - intro Hr. apply Hres in Hr. destruct Hr as [Hr|(Hr & _)]; [contradiction|lia].
Qed.

Lemma setText_interrupts_session_witness :
  w_raf ex_ab1 = [1%nat] /\ ts_resolve (w_ts ex_ab1) = Some O /\
  forall es w2, run es ex_cd = Ok tt w2 -> ~ resolved O w2.
Proof.
  assert (E1 : w_raf ex_ab1 = [1%nat]) by (vm_compute; reflexivity).
  assert (E2 : ts_resolve (w_ts ex_ab1) = Some O) by (vm_compute; reflexivity).
  split; [exact E1|]. split; [exact E2|].
  destruct (setText_interrupts_session ex_ab1 (js "CD") O ex_cd reachable_ex_ab1
              ltac:(rewrite E1; discriminate) E2 ltac:(vm_compute; reflexivity))
    as (_ & _ & _ & _ & _ & G).
  exact G.
Defined.

(** *** The completion notification *)

(** C1 (amended): let [setText(s)] run in a reachable state, creating
    promise [n]. Whatever events follow, its resolve function is called
    at most once. Whenever it has been called and [n] is still the
    current session's promise, every task has reached [frame >= end] and
    no frame callback is pending. If only animation frames follow, it is
    called exactly once within 80 frames. Each update calls the resolve
    function exactly when every task of the queue has [end <= frame],
    and then requests no frame; otherwise it requests exactly one frame
    and resolves nothing. A session superseded by a later [setText] is
    never resolved (see C3), so "exactly once" holds only for sessions
    that are not interrupted. *)
Theorem completion_at_most_once (w : world) (s : jsstr) (w1 : world) :
  reachable w -> handle (EvSetText s) w = Ok tt w1 ->
  (forall es w2, run es w1 = Ok tt w2 -> (resolve_count (w_next w) w2 <= 1)%nat) /\
  (forall es w2, run es w1 = Ok tt w2 -> ts_resolve (w_ts w2) = Some (w_next w) ->
     resolved (w_next w) w2 ->
     w_raf w2 = [] /\ Forall (fun t => t_end t <= ts_frame (w_ts w2)) (ts_queue (w_ts w2))) /\
  (exists n w2, (n <= 80)%nat /\ run (repeat EvFrame n) w1 = Ok tt w2 /\
     resolve_count (w_next w) w2 = 1%nat /\ w_raf w2 = [] /\
     Forall (fun t => t_end t <= ts_frame (w_ts w2)) (ts_queue (w_ts w2))) /\
  (forall v p, ts_resolve (w_ts v) = Some p ->
     exists v', update v = Ok tt v' /\
       ((Forall (fun t => t_end t <= ts_frame (w_ts v)) (ts_queue (w_ts v)) /\
         w_log v' = w_log v ++ [EResolve p] /\ w_raf v' = w_raf v) \/
        (~ Forall (fun t => t_end t <= ts_frame (w_ts v)) (ts_queue (w_ts v)) /\
         w_log v' = w_log v /\ w_raf v' = w_raf v ++ [w_next v]))).
Proof.
  intros R H. pose proof (reachable_inv w R) as I.
  destruct (setText_event w s w1 I H) as (I1 & _ & R1 & _ & _ & _ & Hres & Hfr).
  split; [intros es w2 E; exact (inv_once _ (run_inv es w1 w2 I1 E) _)|].
  split; [intros es w2 E Hp Hr; exact (inv_done _ (run_inv es w1 w2 I1 E) _ Hp Hr)|].
  split.
  - destruct Hfr as [(F & G)|(F & G)].
    + assert (Hr : resolved (w_next w) w1) by (apply Hres; right; auto).
      exists O, w1. split; [lia|]. split; [reflexivity|].
      split; [exact (count_one _ _ I1 Hr)|]. exact (inv_done _ I1 _ R1 Hr).
    + assert (Hall : Forall (fun t => t_end t <= ts_frame (w_ts w1) + Z.of_nat 78)
                       (ts_queue (w_ts w1))).
      { eapply Forall_impl; [|exact (inv_bounds _ I1)]. unfold task_bounds.
        intros t Ht. rewrite F. simpl. lia. }
      destruct (live_run (w_next w) 78 w1 I1 R1 ltac:(rewrite G; discriminate) Hall)
        as (n & w2 & Hn & E & Hr & A & B & C).
      exists (S n), w2. split; [lia|]. split; [exact E|].
      split; [exact (count_one _ _ (run_inv _ _ _ I1 E) Hr)|]. auto.
  - intros v p Hp.
    destruct (update_spec v p Hp) as (v' & Eu & _ & _ & _ & _ & _ & _ & _ & _ & Hc).
    exists v'. split; [exact Eu|].
    destruct Hc as [(A & _ & _ & B & _ & C)|(A & _ & _ & B & _ & C)]; [left|right]; auto.
Qed.

Lemma completion_at_most_once_witness :
  exists n w2, (n <= 80)%nat /\ run (repeat EvFrame n) ex_ab1 = Ok tt w2 /\
    resolve_count O w2 = 1%nat.
Proof.
  destruct (completion_at_most_once ex_ab [] ex_ab1 reachable_ex_ab ltac:(vm_compute; reflexivity))
    as (_ & _ & (n & w2 & A & B & C & _) & _).
  exists n, w2. auto.
Defined.

(** C1: the first of two [setText] calls on an empty element returns
    promise 0; a second call supersedes it, and after 100 more frames
    promise 0 has never been resolved, while the second promise (2) has
    been resolved once. *)
Lemma superseded_promise_never_resolved :
  match run (EvSetText (js "AB") :: EvSetText (js "CD") :: repeat EvFrame 100) (init_world [] half) with
  | Ok _ w => count_occ effect_eq_dec (w_log w) (EBegin O (js "AB")) = 1%nat /\
              resolve_count O w = O /\ resolve_count 2 w = 1%nat
  | Throw _ => False
  end.
Proof. vm_compute. auto. Qed.

(** *** WordRotator *)

(** C4: a rotator over ["A", "B"] on an empty element, stopped while its
    first transition is in flight. [stop()] finds no timer to clear (the
    continuation that will set it has not run yet), and a frame callback
    is still pending. After 40 frames the transition has completed and
    shows "A", but its continuation has set timer 41. When that timer
    elapses, a transition to "B" begins (promise 42) and the index
    advances to 0. *)
Theorem stop_leaves_advance_pending :
  w_timers rot_stopped = [] /\ w_raf rot_stopped <> [] /\
  option_map r_timeoutId (w_rot rot_stopped) = Some None /\
  match run (repeat EvFrame 40) rot_stopped with
  | Ok _ w =>
      text_content (ts_el (w_ts w)) = js "A" /\ w_timers w = [41%nat] /\
      match handle (EvTimer 41) w with
      | Ok _ w' => w_log w' = w_log w ++ [EBegin 42 (js "B"); EIndex O]
      | Throw _ => False
      end
  | Throw _ => False
  end.
Proof.
  split; [vm_compute; reflexivity|]. split; [vm_compute; discriminate|].
  split; [vm_compute; reflexivity|]. vm_compute. auto.
Qed.

(** C9: [new WordRotator(element, [])] throws: [words[0]] is
    [undefined] and [setText] reads its [length]. *)
Lemma construct_empty_words_throws :
  construct [] None (init_world (js "AB") half) = Throw TypeError.
Proof. reflexivity. Qed.

(** C9 (amended): the word-rotation branch of [initKineticText] on an
    empty word list does nothing and raises nothing, whereas
    constructing a [WordRotator] on an empty list throws a [TypeError],
    in every state and for every interval. *)
Theorem empty_words_rotation (w : world) (iv : Z) :
  init_rotate [] iv w = Ok tt w /\ forall interval, construct [] interval w = Throw TypeError.
Proof. split; [reflexivity|]. intro interval. reflexivity. Qed.

(** C10: on an empty element, a rotator over ["", "X"] resolves the
    promise of its first [setText('')] inside the call, before [next()]
    advances [currentIndex]; the continuation still runs after the
    advance. *)
Lemma index_advances_after_resolve :
  match (construct [[]; js "X"] None ;; drain) (init_world [] half) with
  | Ok _ w => w_log w = [EBegin O []; EResolve O; EIndex 1; EThen O]
  | Throw _ => False
  end.
Proof. vm_compute. reflexivity. Qed.

(** C10 (amended): in every reachable state with a rotator,
    [currentIndex] is a valid index of the non-empty [words], so
    [words[currentIndex]] is defined. [next()] starts [setText] on that
    word (promise [n]) and sets [currentIndex] to
    [(currentIndex + 1) % words.length] before it returns, so before the
    continuation of [n] runs. The resolve function of [n] may already
    have been called by then, if the session completed inside
    [setText]. *)
Theorem rotator_index_step (w : world) (r : rotator) :
  reachable w -> w_rot w = Some r ->
  r_words r <> [] /\ (r_currentIndex r < length (r_words r))%nat /\
  exists word w', nth_error (r_words r) (r_currentIndex r) = Some word /\
    next w = Ok tt w' /\
    let i := Nat.modulo (S (r_currentIndex r)) (length (r_words r)) in
    w_rot w' = Some (with_index i r) /\ (i < length (r_words r))%nat /\
    (w_log w' = w_log w ++ [EBegin (w_next w) word; EIndex i] \/
     w_log w' = w_log w ++ [EBegin (w_next w) word; EResolve (w_next w); EIndex i]).
Proof.
  intros R Er. destruct (inv_rot _ (reachable_inv w R) r Er) as [Hne Hlt].
  split; [exact Hne|]. split; [exact Hlt|].
  destruct (nth_error (r_words r) (r_currentIndex r)) as [word|] eqn:Ew.
  2:{ apply nth_error_None in Ew. lia. }
  destruct (next_spec w r word Er Ew) as (w' & E & Ro & L).
  exists word, w'. split; [reflexivity|]. split; [exact E|]. cbv zeta.
  split; [exact Ro|]. split; [|exact L].
  apply Nat.mod_upper_bound. destruct (r_words r); [contradiction|discriminate].
Qed.

Lemma reachable_rot_ab : reachable rot_ab.
Proof.
  apply (reach_rotator [js "A"; js "B"] None [] half); [exact valid_half|].
  vm_compute. reflexivity.
Qed.

Lemma rotator_index_step_witness :
  w_rot rot_ab = Some (mk_rot [js "A"; js "B"] 1 3000 None) /\
  exists word w', nth_error [js "A"; js "B"] 1 = Some word /\ next rot_ab = Ok tt w' /\
    w_rot w' = Some (mk_rot [js "A"; js "B"] 0 3000 None).
Proof.
  assert (Er : w_rot rot_ab = Some (mk_rot [js "A"; js "B"] 1 3000 None))
    by (vm_compute; reflexivity).
  split; [exact Er|].
  destruct (rotator_index_step rot_ab _ reachable_rot_ab Er) as (_ & _ & word & w' & A & B & C & _).
  exists word, w'. split; [exact A|]. split; [exact B|]. exact C.
Defined.

(** ** Further properties *)

Lemma steady_refl w : steady w w.
Proof. repeat split; auto. Qed.

Lemma steady_trans w1 w2 w3 : steady w1 w2 -> steady w2 w3 -> steady w1 w3.
Proof.
  intros (A1 & B1 & C1 & D1) (A2 & B2 & C2 & D2). split; [congruence|].
  split; [congruence|]. split; [congruence|].
  intros T U. destruct (D1 T U). auto.
Qed.

Lemma steady_adv_pre w w' : steady w w' -> adv_pre w -> adv_pre w'.
Proof.
  intros (A & B & C & D) (P & N & T). split; [lia|]. split.
  - intro E. rewrite C in E. destruct (N E). auto.
  - intros h Hh. rewrite B in Hh. rewrite C. auto.
Qed.

Lemma resolve_world_steady p w : steady w (resolve_world p w).
Proof.
  unfold resolve_world. destruct (existsb _ _).
  - unfold steady, pending. simpl_w. auto.
  - unfold steady, pending. simpl_w. split; [|split; [reflexivity|split; [reflexivity|]]].
    + rewrite length_app.
      rewrite (filter_ext (Nat.eqb p) (fun q => Nat.eqb q p)) by (intro; apply Nat.eqb_sym).
      pose proof (filter_length (fun q => Nat.eqb q p) (w_thens w)). lia.
    + intros -> ->. auto.
Qed.

Lemma update_steady w w' : update w = Ok tt w' -> steady w w'.
Proof.
  intro H.
  destruct (update_loop_shape (ts_frame (w_ts w)) (ts_queue (w_ts w)) w)
    as (out & c & q' & s & E & _).
  rewrite (update_eq w out c q' s E) in H. cbv zeta in H.
  destruct (Nat.eqb c (length q')).
  - destruct (ts_resolve (w_ts w)); [|discriminate]. injection H as <-.
    eapply steady_trans; [|apply resolve_world_steady].
    unfold steady, pending. simpl_w. auto.
  - injection H as <-. unfold steady, pending. simpl_w. auto.
Qed.

Lemma setText_steady w s n w' : setText (Some s) w = Ok n w' -> steady w w'.
Proof.
  intro H. destruct (setText_shape w s) as (q & s1 & Eq & _).
  rewrite Eq in H. unfold bind in H.
  destruct (update (setText_world w s q s1)) as [[] w1|x] eqn:Eu; [|discriminate].
  injection H as _ <-.
  eapply steady_trans; [|exact (update_steady _ _ Eu)].
  unfold steady, pending, setText_world. simpl_w. auto.
Qed.

Lemma run_frame_callbacks_steady l : forall w w',
  run_frame_callbacks l w = Ok tt w' -> steady w w'.
Proof.
  induction l as [|h l IH]; intros w w' H; simpl in H.
  - injection H as <-. apply steady_refl.
  - unfold bind in H. destruct (update w) as [[] w1|x] eqn:Eu; [|discriminate].
    exact (steady_trans _ _ _ (update_steady _ _ Eu) (IH _ _ H)).
Qed.

Lemma fire_frame_steady w w' : fire_frame w = Ok tt w' -> steady w w'.
Proof.
  unfold fire_frame, bind, gets, modify. intro H.
  eapply steady_trans; [|exact (run_frame_callbacks_steady _ _ _ H)].
  unfold steady, pending. simpl_w. auto.
Qed.

Lemma continuation_eq p w :
  continuation p w =
    Ok tt (let w1 := set_timers (w_timers w ++ [w_next w])
                       (set_next (S (w_next w)) (set_log (w_log w ++ [EThen p]) w)) in
           match w_rot w with
           | Some r => set_rot (Some (with_timeout (Some (w_next w)) r)) w1
           | None => w1
           end).
Proof.
  cbv [continuation bind emit modify set_timeout fresh get_rot gets ret put_rot].
  simpl_w. destruct (w_rot w); reflexivity.
Qed.

(** The microtask checkpoint queues nothing and keeps the count of
    pending advances: each job it runs sets one timer. *)
Lemma drain_adv w w' :
  adv_pre w -> drain w = Ok tt w' ->
  adv w' /\ pending w' = pending w /\
  (w_micro w = [] -> w_rot w' = w_rot w /\ w_timers w' = w_timers w /\ w_thens w' = w_thens w).
Proof.
  intros (P & N & T) H. unfold drain, bind, gets, modify in H.
  unfold pending in *.
  destruct (w_micro w) as [|p [|p' l]] eqn:Em.
  - injection H as <-. split; [split; [split; [|split]|]|split].
    + unfold pending. simpl_w. simpl in *. lia.
    + simpl_w. intro E. destruct (N E). auto.
    + exact T.
    + reflexivity.
    + unfold pending. simpl_w. simpl in *. lia.
    + auto.
  - simpl in P.
    assert (Th : w_thens w = []) by (destruct (w_thens w); [reflexivity|simpl in P; lia]).
    assert (Ti : w_timers w = []) by (destruct (w_timers w); [reflexivity|simpl in P; lia]).
    destruct (w_rot w) as [r|] eqn:Er.
    2:{ destruct (N eq_refl) as [_ F]. discriminate. }
    cbn [run_jobs] in H. unfold bind in H. rewrite continuation_eq in H.
    simpl_w. rewrite Er in H. cbv [ret] in H. injection H as <-.
    split; [split; [split; [|split]|]|split].
    + unfold pending. simpl_w. rewrite Th, Ti. simpl. lia.
    + discriminate.
    + simpl_w. rewrite Ti. intros h [<-|[]]. eexists. split; [reflexivity|reflexivity].
    + reflexivity.
    + unfold pending. simpl_w. rewrite Th, Ti. simpl. lia.
    + discriminate.
  - simpl in P. lia.
Qed.

Lemma register_then_pending p w w' :
  register_then p w = Ok tt w' ->
  pending w' = S (pending w) /\ w_timers w' = w_timers w /\ w_rot w' = w_rot w.
Proof.
  unfold register_then, modify. intro H. injection H as <-.
  destruct (existsb _ _); unfold pending; simpl_w; rewrite length_app; simpl;
    repeat split; lia.
Qed.

(** [next()] on a rotator adds one pending advance, its continuation. *)
Lemma next_pending w r w' :
  inv w -> w_rot w = Some r -> next w = Ok tt w' ->
  pending w' = S (pending w) /\ w_timers w' = w_timers w /\
  exists r', w_rot w' = Some r' /\ r_timeoutId r' = r_timeoutId r.
Proof.
  intros I Er H. destruct (inv_rot _ I r Er) as [Hne Hlt].
  destruct (nth_error (r_words r) (r_currentIndex r)) as [word|] eqn:Ew.
  2:{ apply nth_error_None in Ew. lia. }
  destruct (setText_inv w word I) as (w1 & E1 & _).
  destruct (setText_steady w word _ w1 E1) as (P1 & T1 & R1 & _).
  unfold next, bind at 1, get_rot, gets in H. rewrite Er in H.
  unfold bind at 1 in H. rewrite Ew, E1 in H. unfold bind at 1 in H.
  destruct (register_then (w_next w) w1) as [[] w2|x] eqn:E2; [|discriminate].
  destruct (register_then_pending _ _ _ E2) as (P2 & T2 & R2).
  unfold bind at 1, get_rot, gets in H. rewrite R2, R1, Er in H.
  unfold bind, put_rot, modify, emit in H. injection H as <-.
  unfold pending in *. simpl_w. split; [lia|]. split; [congruence|].
  eexists. split; reflexivity.
Qed.

Lemma steady_drain w w1 w' :
  adv w -> steady w w1 -> drain w1 = Ok tt w' ->
  adv w' /\ pending w' = pending w /\ (pending w = 0%nat -> w_rot w' = w_rot w).
Proof.
  intros [A Em] S H. pose proof (steady_adv_pre _ _ S A) as A1.
  destruct (drain_adv _ _ A1 H) as (A' & P' & K).
  destruct S as (P1 & T1 & R1 & D1).
  split; [exact A'|]. split; [lia|]. intro Z0.
  assert (Th : w_thens w = []) by (unfold pending in Z0; destruct (w_thens w); [reflexivity|simpl in Z0; lia]).
  destruct (D1 Th Em) as [_ Em1]. destruct (K Em1) as [R' _]. congruence.
Qed.

Lemma cancel_list_length h l : (length (cancel_list h l) <= length l)%nat.
Proof. destruct h; simpl; [apply filter_length_le|lia]. Qed.

Lemma cancel_list_in h l x : In x (cancel_list h l) -> In x l.
Proof. destruct h; simpl; [intro H; apply filter_In in H; tauto|auto]. Qed.

Lemma remove_id_single t : remove_id t [t] = [].
Proof. unfold remove_id. simpl. rewrite Nat.eqb_refl. reflexivity. Qed.

(** Every event keeps [adv], never adds a pending advance, and leaves
    the rotator alone when none is pending. *)
Lemma handle_adv e w w' :
  inv w -> adv w -> handle e w = Ok tt w' ->
  adv w' /\ (pending w' <= pending w)%nat /\ (pending w = 0%nat -> w_rot w' = w_rot w).
Proof.
  intros I A H. unfold handle, bind at 1 in H. destruct e as [s| |t|].
  - unfold bind at 1 in H.
    destruct (setText (Some s) w) as [n w1|x] eqn:E; [|discriminate].
    destruct (steady_drain w w1 w' A (setText_steady _ _ _ _ E) H) as (A' & P' & R').
    split; [exact A'|]. split; [lia|exact R'].
  - destruct (fire_frame w) as [[] w1|x] eqn:E; [|discriminate].
    destruct (steady_drain w w1 w' A (fire_frame_steady _ _ E) H) as (A' & P' & R').
    split; [exact A'|]. split; [lia|exact R'].
  - unfold fire_timer, bind at 1, gets in H.
    destruct (existsb (Nat.eqb t) (w_timers w)) eqn:Ex.
    + apply existsb_exists in Ex. destruct Ex as (t' & Hin & Et).
      apply Nat.eqb_eq in Et. subst t'.
      destruct A as [(P & N & T) Em].
      destruct (T t Hin) as (r & Er & Eh).
      assert (Ti : w_timers w = [t]).
      { unfold pending in P. destruct (w_timers w) as [|a [|b l]]; simpl in P, Hin.
        - destruct Hin. - destruct Hin as [<-|[]]. reflexivity. - lia. }
      assert (Th : w_thens w = []).
      { unfold pending in P. rewrite Ti in P. destruct (w_thens w); [reflexivity|simpl in P; lia]. }
      unfold bind at 1, modify in H. rewrite Ti, remove_id_single in H.
      assert (B : benign w (set_timers [] w)).
      { benign_split. split; [reflexivity|]. intros r' H'. exists r'. auto. }
      destruct (benign_inv _ _ I B) as [I0 _].
      destruct (next (set_timers [] w)) as [[] w1|x] eqn:En; [|discriminate].
      destruct (next_pending _ r _ I0 Er En) as (P1 & T1 & r1 & R1 & _).
      assert (A1 : adv_pre w1).
      { split; [|split].
        - unfold pending in *. simpl_w. rewrite Th, Em in P1. simpl in P1. lia.
        - rewrite R1. discriminate.
        - rewrite T1. simpl_w. intros h []. }
      destruct (drain_adv _ _ A1 H) as (A' & P' & _).
      split; [exact A'|]. split.
      * unfold pending in *. simpl_w. rewrite Th, Em, Ti in *. simpl in *. lia.
      * unfold pending. rewrite Ti. simpl. lia.
    + cbv [ret] in H.
      destruct (steady_drain w w w' A (steady_refl w) H) as (A' & P' & R').
      split; [exact A'|]. split; [lia|exact R'].
  - unfold stop, bind at 1, get_rot, gets in H.
    pose proof A as A0. destruct A as [(P & N & T) Em].
    destruct (w_rot w) as [r|] eqn:Er.
    + unfold clear_timeout, modify in H.
      set (w1 := set_timers (cancel_list (r_timeoutId r) (w_timers w)) w) in H.
      assert (A1 : adv_pre w1).
      { split; [|split]; unfold pending in *; subst w1; simpl_w.
        - pose proof (cancel_list_length (r_timeoutId r) (w_timers w)). lia.
        - rewrite Er. discriminate.
        - intros h Hh. rewrite Er. apply T. exact (cancel_list_in _ _ _ Hh). }
      destruct (drain_adv _ _ A1 H) as (A' & P' & K).
      destruct (K Em) as (R' & _).
      split; [exact A'|]. split.
      * rewrite P'. unfold pending. subst w1. simpl_w.
        pose proof (cancel_list_length (r_timeoutId r) (w_timers w)). lia.
      * intros _. rewrite R'. subst w1. simpl_w. exact Er.
    + cbv [ret] in H.
      destruct (steady_drain w w w' A0 (steady_refl w) H) as (A' & P' & R').
      split; [exact A'|]. split; [lia|]. intros _. rewrite <- Er. apply R'.
      destruct (N eq_refl) as [Th _]. unfold pending. rewrite Th, Em.
      destruct (w_timers w) as [|b l'] eqn:Eti; [reflexivity|].
      destruct (T b (or_introl eq_refl)) as (r' & F & _). discriminate.
Qed.

Lemma construct_adv words iv txt rng w :
  valid_rng rng -> (construct words iv ;; drain) (init_world txt rng) = Ok tt w -> adv w.
Proof.
  intros Hv H. destruct words as [|w0 ws].
  - vm_compute in H. discriminate.
  - set (r := mk_rot (w0 :: ws) 0 (match iv with Some v => v | None => 3000 end) None).
    destruct (inv_set_rot (init_world txt rng) r (init_inv txt rng Hv)) as [I1 _].
    + discriminate.
    + simpl. lia.
    + assert (E0 : (construct (w0 :: ws) iv ;; drain) (init_world txt rng) =
                   (next ;; drain) (set_rot (Some r) (init_world txt rng))) by reflexivity.
      rewrite E0 in H. unfold bind at 1 in H.
      destruct (next (set_rot (Some r) (init_world txt rng))) as [[] w1|x] eqn:En;
        [|discriminate].
      destruct (next_pending _ r _ I1 eq_refl En) as (P1 & T1 & r1 & R1 & _).
      assert (A1 : adv_pre w1).
      { split; [|split].
        - rewrite P1. reflexivity.
        - rewrite R1. discriminate.
        - rewrite T1. intros h []. }
      exact (proj1 (drain_adv _ _ A1 H)).
Qed.

Lemma reachable_adv w : reachable w -> adv w.
Proof.
  induction 1 as [txt rng Hv|words iv txt rng w Hv H|e w w' R IH H].
  - split; [split; [|split]|]; simpl; auto; intros h [].
  - eapply construct_adv; eassumption.
  - exact (proj1 (handle_adv e w w' (reachable_inv w R) IH H)).
Qed.

Lemma run_adv es : forall w w',
  inv w -> adv w -> run es w = Ok tt w' ->
  adv w' /\ (pending w' <= pending w)%nat /\ (pending w = 0%nat -> w_rot w' = w_rot w).
Proof.
  induction es as [|e es IH]; intros w w' I A H.
  - injection H as <-. auto.
  - rewrite run_cons in H.
    destruct (handle e w) as [[] w1|x] eqn:E; [|discriminate].
    destruct (handle_adv e w w1 I A E) as (A1 & P1 & R1).
    destruct (IH w1 w' (proj1 (handle_inv e w w1 I E)) A1 H) as (A' & P' & R').
    split; [exact A'|]. split; [lia|]. intro Z0. rewrite R', R1; [reflexivity|exact Z0|lia].
Qed.

Lemma reachable_run es : forall w w', reachable w -> run es w = Ok tt w' -> reachable w'.
Proof.
  induction es as [|e es IH]; intros w w' R H.
  - injection H as <-. exact R.
  - rewrite run_cons in H.
    destruct (handle e w) as [[] w1|x] eqn:E; [|discriminate].
    exact (IH w1 w' (reach_step _ _ _ R E) H).
Qed.


Lemma reachable_rot_wait : reachable rot_wait.
Proof.
  apply (reachable_run (repeat EvFrame 40) rot_ab); [exact reachable_rot_ab|].
  vm_compute. reflexivity.
Qed.

(** X1: in every world reachable from the page, at most one advance of
    the rotator is pending: the then-callbacks waiting on a [setText]
    promise and the pending timers are at most one together, no
    continuation job is left queued, and every pending timer is the one
    [this.timeoutId] names. *)
Theorem rotator_single_advance (w : world) :
  reachable w ->
  (length (w_thens w) + length (w_timers w) <= 1)%nat /\ w_micro w = [] /\
  forall h, In h (w_timers w) -> exists r, w_rot w = Some r /\ r_timeoutId r = Some h.
Proof.
  intro R. destruct (reachable_adv w R) as [(P & _ & T) Em].
  unfold pending in P. rewrite Em in P. simpl in P.
  split; [lia|]. split; [exact Em|exact T].
Qed.

Lemma rotator_single_advance_witness :
  w_thens rot_wait = [] /\ w_timers rot_wait = [41%nat] /\
  exists r, w_rot rot_wait = Some r /\ r_timeoutId r = Some 41%nat.
Proof.
  destruct (rotator_single_advance rot_wait reachable_rot_wait) as (_ & _ & T).
  assert (Et : w_timers rot_wait = [41%nat]) by (vm_compute; reflexivity).
  split; [vm_compute; reflexivity|]. split; [exact Et|].
  apply T. rewrite Et. left. reflexivity.
Defined.

(** X2: when [stop()] runs while no then-callback of a transition is
    waiting, it leaves the rotator as it is with no timer and no
    then-callback, and no later sequence of events starts a transition
    again or sets a timer. *)
Theorem stop_between_transitions (w w1 : world) :
  reachable w -> w_thens w = [] -> handle EvStop w = Ok tt w1 ->
  w_rot w1 = w_rot w /\ w_timers w1 = [] /\ w_thens w1 = [] /\
  forall es w2, run es w1 = Ok tt w2 ->
    w_rot w2 = w_rot w1 /\ w_timers w2 = [] /\ w_thens w2 = [].
Proof.
  intros R Th H. pose proof (reachable_inv w R) as I. pose proof (reachable_adv w R) as A.
  destruct (handle_inv _ _ _ I H) as [I1 _].
  destruct (handle_adv _ _ _ I A H) as (A1 & _).
  pose proof A as [(P & N & T) Em].
  assert (E1 : w_rot w1 = w_rot w /\ w_timers w1 = [] /\ w_thens w1 = []).
  { unfold handle, bind at 1, stop, bind at 1, get_rot, gets in H.
    destruct (w_rot w) as [r|] eqn:Er.
    - unfold clear_timeout, modify in H.
      assert (Ec : cancel_list (r_timeoutId r) (w_timers w) = []).
      { unfold pending in P. rewrite Th, Em in P. simpl in P.
        destruct (w_timers w) as [|h [|h' l]] eqn:Et.
        - destruct (r_timeoutId r); reflexivity.
        - destruct (T h (or_introl eq_refl)) as (r' & F & G).
          injection F as <-. rewrite G. apply remove_id_single.
        - simpl in P. lia. }
      assert (A0 : adv_pre (set_timers (cancel_list (r_timeoutId r) (w_timers w)) w)).
      { rewrite Ec. split; [|split]; unfold pending; simpl_w.
        - rewrite Th, Em. simpl. lia.
        - rewrite Er. discriminate.
        - intros h []. }
      destruct (drain_adv _ _ A0 H) as (_ & _ & K).
      destruct (K Em) as (R' & T' & H'). simpl_w. rewrite R', T', H', Ec.
      auto.
    - cbv [ret] in H.
      destruct (drain_adv _ _ (proj1 A) H) as (_ & _ & K).
      destruct (K Em) as (R' & T' & H'). rewrite R', T', H'.
      split; [exact Er|]. split; [|exact Th].
      destruct (w_timers w) as [|h l]; [reflexivity|].
      destruct (T h (or_introl eq_refl)) as (r' & F & _). discriminate. }
  destruct E1 as (R1 & T1 & H1).
  split; [exact R1|]. split; [exact T1|]. split; [exact H1|].
  assert (Z0 : pending w1 = 0%nat).
  { unfold pending. rewrite T1, H1, (proj2 A1). reflexivity. }
  intros es w2 E2. destruct (run_adv es w1 w2 I1 A1 E2) as (_ & P2 & R2).
  split; [exact (R2 Z0)|]. rewrite Z0 in P2. unfold pending in P2.
  split; [destruct (w_timers w2); [reflexivity|simpl in P2; lia]|].
  destruct (w_thens w2); [reflexivity|simpl in P2; lia].
Qed.


Lemma stop_between_transitions_witness :
  w_timers rot_wait = [41%nat] /\ w_timers rot_wait_stopped = [] /\
  forall es w2, run es rot_wait_stopped = Ok tt w2 ->
    w_rot w2 = w_rot rot_wait_stopped /\ w_timers w2 = [].
Proof.
  assert (Eh : handle EvStop rot_wait = Ok tt rot_wait_stopped) by (vm_compute; reflexivity).
  destruct (stop_between_transitions rot_wait rot_wait_stopped reachable_rot_wait
              ltac:(vm_compute; reflexivity) Eh) as (_ & T1 & _ & K).
  split; [vm_compute; reflexivity|]. split; [exact T1|].
  intros es w2 E. destruct (K es w2 E) as (A & B & _). auto.
Defined.

(** X3: in every reachable world at most one animation frame callback
    is pending, and it is the one [this.frameRequest] names. *)
Theorem single_frame_request (w : world) :
  reachable w ->
  w_raf w = [] \/ exists h, w_raf w = [h] /\ ts_frameRequest (w_ts w) = Some h.
Proof. intro R. exact (inv_raf _ (reachable_inv w R)). Qed.

Lemma single_frame_request_witness :
  exists h, w_raf ex_ab1 = [h] /\ ts_frameRequest (w_ts ex_ab1) = Some h.
Proof.
  destruct (single_frame_request ex_ab1 reachable_ex_ab1) as [E|E]; [|exact E].
  vm_compute in E. discriminate.
Defined.

(** X4: [setText('')] on an element whose text is empty resolves its
    promise within the call: no frame is requested, the queue is empty
    and the element stays empty. *)
Theorem empty_setText_resolves_at_once (w w1 : world) :
  reachable w -> text_content (ts_el (w_ts w)) = [] ->
  handle (EvSetText []) w = Ok tt w1 ->
  resolved (w_next w) w1 /\ w_raf w1 = [] /\ ts_queue (w_ts w1) = [] /\ ts_el (w_ts w1) = [].
Proof.
  intros R Ht H. pose proof (reachable_inv w R) as I.
  destruct (setText_shape w []) as (q & s1 & Eq & Ha & Hl & Hf & Hb).
  rewrite Ht in Hl. simpl in Hl. destruct q; [|discriminate].
  destruct (setText_world_inv w [] [] s1 I Ha) as (_ & _ & R6 & _).
  { intros m t Hm. destruct m; discriminate. }
  { constructor. }
  destruct (update_spec (setText_world w [] [] s1) (w_next w) eq_refl)
    as (w' & Eu & _ & Hs & Hel & _ & _ & _ & _ & _ & Hcase).
  assert (Ed : drain w' = Ok tt w1).
  { unfold handle in H. unfold bind at 1 in H. unfold bind at 1 in H.
    rewrite Eq in H. unfold bind at 1 in H. rewrite Eu in H. exact H. }
  destruct (benign_drain _ _ _ Ed) as (A & _ & C & _ & Cn & _).
  destruct Hcase as [(_ & _ & _ & F & _ & G)|(N & _)].
  2:{ exfalso. apply N. constructor. }
  rewrite (count_resolved _ _ _ Cn). unfold resolved. rewrite G, C, F, A.
  split; [apply in_app_iff; right; left; reflexivity|]. split; [exact R6|].
  inversion Hs as [Hq|]. split; [reflexivity|].
  simpl in Hel. destruct (ts_el (w_ts w')); [reflexivity|discriminate].
Qed.

Lemma empty_setText_resolves_at_once_witness :
  match handle (EvSetText []) (init_world [] half) with
  | Ok _ w1 => resolved 0 w1 /\ w_raf w1 = []
  | Throw _ => False
  end.
Proof.
  destruct (handle (EvSetText []) (init_world [] half)) as [[] w1|x] eqn:E.
  - destruct (empty_setText_resolves_at_once (init_world [] half) w1
                (reach_init [] half valid_half) eq_refl E) as (A & B & _).
    split; [exact A|exact B].
  - vm_compute in E. discriminate.
Defined.

Lemma js_eqb_refl a : js_eqb a a = true.
Proof. unfold js_eqb. destruct (list_eq_dec N.eq_dec a a); congruence. Qed.

Lemma js_eqb_eq a b : js_eqb a b = true <-> a = b.
Proof. unfold js_eqb. destruct (list_eq_dec N.eq_dec a b); split; congruence. Qed.

Lemma get_set_attr k v l : get_attr k (set_attr k v l) = Some v.
Proof.
  induction l as [|[k' v'] l IH]; simpl.
  - rewrite js_eqb_refl. reflexivity.
  - destruct (js_eqb k k') eqn:E; simpl.
    + rewrite js_eqb_refl. reflexivity.
    + rewrite E. exact IH.
Qed.

Lemma text_children_text s : concat (map node_text (text_children s)) = s.
Proof. destruct s; simpl; [reflexivity|rewrite app_nil_r; reflexivity]. Qed.

Lemma make_span_text cls var i t : node_text (make_span cls var i t) = t.
Proof. unfold make_span. simpl. apply text_children_text. Qed.

Lemma char_unit c : (if js_eqb [c] (js " ") then nbsp else [c]) = [nbsp_unit c].
Proof.
  unfold nbsp_unit. destruct (js_eqb [c] (js " ")) eqn:E.
  - apply js_eqb_eq in E. injection E as ->. reflexivity.
  - destruct (N.eqb_spec c 32); [subst; rewrite js_eqb_refl in E; discriminate|reflexivity].
Qed.

Lemma chars_nodes_text i t :
  concat (map node_text (chars_nodes i (split_chars t))) = map nbsp_unit t.
Proof.
  unfold split_chars. revert i. induction t as [|c t IH]; intro i; [reflexivity|].
  rewrite map_cons. cbn [chars_nodes]. rewrite map_cons, concat_cons, make_span_text, char_unit.
  cbn [app map]. f_equal. apply IH.
Qed.

Lemma chars_nodes_length i t : length (chars_nodes i (split_chars t)) = length t.
Proof. revert i. induction t as [|c t IH]; intro i; simpl; [reflexivity|]. f_equal. apply IH. Qed.

Lemma chars_nodes_nth i t k c :
  nth_error t k = Some c ->
  nth_error (chars_nodes i (split_chars t)) k =
    Some (make_span (js "char") (js "--char-index") (i + k) [nbsp_unit c]).
Proof.
  revert i k. induction t as [|c' t IH]; intros i k H; [destruct k; discriminate|].
  destruct k as [|k]; simpl in H |- *.
  - injection H as ->. rewrite char_unit, Nat.add_0_r. reflexivity.
  - rewrite (IH (S i) k H). do 2 f_equal. lia.
Qed.

Lemma split_on_nonempty c s : split_on c s <> [].
Proof.
  induction s as [|a s IH]; simpl; [discriminate|].
  destruct (a =? c)%N; [discriminate|]. destruct (split_on c s); discriminate.
Qed.

Lemma join_sp_cons c w ws : join_sp ((c :: w) :: ws) = c :: join_sp (w :: ws).
Proof. destruct ws; reflexivity. Qed.

Lemma split_join s : join_sp (split_on 32 s) = s.
Proof.
  induction s as [|a s IH]; simpl; [reflexivity|].
  destruct (N.eqb_spec a 32) as [->|Ne].
  - destruct (split_on 32 s) as [|x xs] eqn:E; [destruct (split_on_nonempty 32 s E)|].
    cbn [join_sp]. rewrite <- IH. reflexivity.
  - destruct (split_on 32 s) as [|x xs] eqn:E; [destruct (split_on_nonempty 32 s E)|].
    rewrite join_sp_cons. f_equal. exact IH.
Qed.

Lemma words_nodes_text ws : forall i len, ws <> [] -> (i + length ws = len)%nat ->
  concat (map node_text (words_nodes i ws len)) = join_sp ws.
Proof.
  induction ws as [|w ws IH]; intros i len Hne Hl; [contradiction|].
  cbn [words_nodes]. rewrite map_cons, concat_cons, make_span_text.
  destruct ws as [|w' ws'].
  - simpl in Hl. replace (Nat.ltb i (len - 1)) with false by (symmetry; apply Nat.ltb_ge; lia).
    simpl. apply app_nil_r.
  - simpl in Hl. replace (Nat.ltb i (len - 1)) with true by (symmetry; apply Nat.ltb_lt; lia).
    rewrite <- app_comm_cons, app_nil_l, map_cons, concat_cons.
    rewrite (IH (S i) len ltac:(discriminate) ltac:(simpl; lia)). reflexivity.
Qed.

Lemma words_nodes_length ws : forall i len, ws <> [] -> (i + length ws = len)%nat ->
  length (words_nodes i ws len) = (2 * length ws - 1)%nat.
Proof.
  induction ws as [|w ws IH]; intros i len Hne Hl; [contradiction|].
  cbn [words_nodes]. destruct ws as [|w' ws'].
  - simpl in Hl. replace (Nat.ltb i (len - 1)) with false by (symmetry; apply Nat.ltb_ge; lia).
    reflexivity.
  - simpl in Hl. replace (Nat.ltb i (len - 1)) with true by (symmetry; apply Nat.ltb_lt; lia).
    cbn [length app]. rewrite (IH (S i) len ltac:(discriminate) ltac:(simpl; lia)).
    simpl. lia.
Qed.

Lemma split_on_length_any c s : length (split_on c s) = S (count_occ N.eq_dec s c).
Proof.
  induction s as [|a s IH]; simpl; [reflexivity|].
  destruct (N.eqb_spec a c) as [->|Ne].
  - destruct (N.eq_dec c c); [|congruence]. simpl. rewrite IH. reflexivity.
  - destruct (N.eq_dec a c); [congruence|].
    destruct (split_on c s) as [|x xs] eqn:E; [destruct (split_on_nonempty c s E)|].
    simpl in *. exact IH.
Qed.

Lemma drop_ws_ok s : starts_ok (drop_ws s).
Proof.
  induction s as [|c s IH]; simpl; [exact I|]. destruct (is_ws c) eqn:E; [exact IH|exact E].
Qed.

Lemma drop_ws_id s : starts_ok s -> drop_ws s = s.
Proof. destruct s as [|c s]; simpl; [reflexivity|]. intro H. rewrite H. reflexivity. Qed.

Lemma drop_ws_suffix s : exists p, s = p ++ drop_ws s.
Proof.
  induction s as [|c s [p Hp]]; simpl; [exists []; reflexivity|].
  destruct (is_ws c); [exists (c :: p); simpl; f_equal; exact Hp|exists []; reflexivity].
Qed.

Lemma trim_ends s : starts_ok (trim s) /\ starts_ok (rev (trim s)).
Proof.
  unfold trim. rewrite rev_involutive. split; [|apply drop_ws_ok].
  destruct (drop_ws_suffix (rev (drop_ws s))) as [p Hp].
  pose proof (drop_ws_ok s) as H.
  apply (f_equal (@rev N)) in Hp. rewrite rev_involutive, rev_app_distr in Hp.
  destruct (rev (drop_ws (rev (drop_ws s)))) as [|c l]; [exact I|].
  rewrite Hp in H. exact H.
Qed.

Lemma trim_id s : starts_ok s -> starts_ok (rev s) -> trim s = s.
Proof.
  intros H1 H2. unfold trim. rewrite (drop_ws_id s H1), (drop_ws_id _ H2). apply rev_involutive.
Qed.

Lemma trim_idem s : trim (trim s) = trim s.
Proof. destruct (trim_ends s) as [A B]. exact (trim_id _ A B). Qed.

Lemma nbsp_unit_ok l : starts_ok l -> starts_ok (map nbsp_unit l).
Proof.
  destruct l as [|c l]; simpl; [auto|]. intro H. unfold nbsp_unit.
  destruct (N.eqb_spec c 32) as [->|_]; [discriminate|exact H].
Qed.

Lemma nbsp_unit_idem c : nbsp_unit (nbsp_unit c) = nbsp_unit c.
Proof. unfold nbsp_unit. destruct (c =? 32)%N eqn:E; [reflexivity|rewrite E; reflexivity]. Qed.

Lemma chars_nodes_nbsp i t :
  chars_nodes i (split_chars (map nbsp_unit t)) = chars_nodes i (split_chars t).
Proof.
  unfold split_chars. revert i. induction t as [|c t IH]; intro i; [reflexivity|].
  rewrite !map_cons. cbn [chars_nodes]. rewrite !char_unit, nbsp_unit_idem. f_equal. apply IH.
Qed.

Lemma splitText_chars_eq e :
  splitText e None =
  mk_el (el_tag e) (set_attr (js "aria-label") (trim (text_of e)) (el_attrs e)) (el_style e)
    (chars_nodes 0 (split_chars (trim (text_of e)))).
Proof. reflexivity. Qed.

Lemma splitText_chars_spans_gen (e : element) :
  let t := trim (text_of e) in
  let e' := splitText e None in
  get_attr (js "aria-label") (el_attrs e') = Some t /\
  text_of e' = map nbsp_unit t /\
  length (el_children e') = length t /\
  forall k c, nth_error t k = Some c ->
    nth_error (el_children e') k = Some (make_span (js "char") (js "--char-index") k [nbsp_unit c]).
Proof.
  cbv zeta. rewrite splitText_chars_eq. unfold text_of at 2. cbn [el_attrs el_children].
  split; [apply get_set_attr|]. split; [apply chars_nodes_text|].
  split; [apply chars_nodes_length|]. intros k c H. exact (chars_nodes_nth 0 _ k c H).
Qed.

(** X5: [splitText(el)] (type ['chars']) sets [aria-label] to the
    trimmed text and appends one span per code unit of it: span [k] has
    class [char], [--char-index] [k] and the [k]-th unit as text, a space
    shown as U+00A0, so the element's text is the trimmed text with its
    spaces replaced by U+00A0. *)
Theorem splitText_chars_spans (e : element) :
  let t := trim (text_of e) in
  let e' := splitText e None in
  get_attr (js "aria-label") (el_attrs e') = Some t /\
  text_of e' = map nbsp_unit t /\
  length (el_children e') = length t /\
  forall k c, nth_error t k = Some c ->
    nth_error (el_children e') k = Some (make_span (js "char") (js "--char-index") k [nbsp_unit c]).
Proof. exact (splitText_chars_spans_gen e). Qed.

Lemma words_nodes_nth ws : forall i len k x, (i + length ws = len)%nat -> nth_error ws k = Some x ->
  nth_error (words_nodes i ws len) (2 * k) = Some (make_span (js "word") (js "--word-index") (i + k) x) /\
  ((S k < length ws)%nat -> nth_error (words_nodes i ws len) (S (2 * k)) = Some (DText (js " "))).
Proof.
  induction ws as [|w ws IH]; intros i len k x Hl Hk; [destruct k; discriminate|].
  cbn [words_nodes]. destruct k as [|k].
  - simpl in Hk. injection Hk as <-. rewrite Nat.add_0_r. split; [reflexivity|].
    intro Hs. simpl in Hl, Hs.
    replace (Nat.ltb i (len - 1)) with true by (symmetry; apply Nat.ltb_lt; lia). reflexivity.
  - simpl in Hk.
    destruct ws as [|w' ws']; [destruct k; discriminate|]. simpl in Hl.
    replace (Nat.ltb i (len - 1)) with true by (symmetry; apply Nat.ltb_lt; lia).
    destruct (IH (S i) len k x ltac:(simpl; lia) Hk) as [A B].
    cbn [app]. split.
    + replace (2 * S k)%nat with (S (S (2 * k))) by lia. cbn [nth_error]. rewrite A.
      f_equal. f_equal. lia.
    + intro Hs. replace (S (2 * S k)) with (S (S (S (2 * k)))) by lia. cbn [nth_error].
      apply B. simpl in Hs |- *. lia.
Qed.

(** X6: [splitText(el, 'words')] keeps the trimmed text: [aria-label]
    is the trimmed text, the element's text is again the trimmed text,
    and it has [2 * (number of spaces) + 1] children: child [2k] is the
    span of word [k] (class [word], [--word-index] [k]), and child
    [2k+1] is a space text node when word [k] is not the last. *)
Theorem splitText_words_round_trip (e : element) :
  let t := trim (text_of e) in
  let e' := splitText e (Some (js "words")) in
  get_attr (js "aria-label") (el_attrs e') = Some t /\
  text_of e' = t /\
  length (el_children e') = (2 * count_occ N.eq_dec t 32%N + 1)%nat /\
  forall k x, nth_error (split_on 32 t) k = Some x ->
    nth_error (el_children e') (2 * k) = Some (make_span (js "word") (js "--word-index") k x) /\
    ((S k < length (split_on 32 t))%nat ->
       nth_error (el_children e') (S (2 * k)) = Some (DText (js " "))).
Proof.
  cbv zeta. unfold splitText. cbv zeta.
  change (js_eqb (js "words") (js "chars")) with false.
  change (js_eqb (js "words") (js "words")) with true. cbv iota.
  unfold text_of at 2. cbn [el_attrs el_children append_children with_attr set_text text_children app].
  split; [apply get_set_attr|].
  set (ws := split_on 32 (trim (text_of e))).
  unfold text_of at 1. cbn [el_children append_children with_attr set_text text_children app].
  rewrite (words_nodes_text ws 0 (length ws) (split_on_nonempty _ _) eq_refl).
  split; [apply split_join|].
  split.
  - rewrite (words_nodes_length ws 0 (length ws) (split_on_nonempty _ _) eq_refl).
    unfold ws. rewrite split_on_length_any. lia.
  - intros k x Hk. exact (words_nodes_nth ws 0 (length ws) k x eq_refl Hk).
Qed.

(** X7: splitting into characters twice gives the same spans as
    splitting once, but the second call changes [aria-label] from the
    trimmed text to that text with its spaces replaced by U+00A0. *)
Theorem splitText_chars_twice (e : element) :
  let e1 := splitText e None in
  let e2 := splitText e1 None in
  el_children e2 = el_children e1 /\
  get_attr (js "aria-label") (el_attrs e1) = Some (trim (text_of e)) /\
  get_attr (js "aria-label") (el_attrs e2) = Some (map nbsp_unit (trim (text_of e))).
Proof.
  cbv zeta. destruct (splitText_chars_spans_gen e) as (A1 & T1 & _). cbv zeta in A1, T1.
  rewrite (splitText_chars_eq (splitText e None)). cbn [el_children el_attrs].
  rewrite T1.
  destruct (trim_ends (text_of e)) as [H1 H2].
  rewrite (trim_id (map nbsp_unit _) (nbsp_unit_ok _ H1)) by (rewrite <- map_rev; apply nbsp_unit_ok; exact H2).
  split; [rewrite chars_nodes_nbsp; reflexivity|]. split; [exact A1|apply get_set_attr].
Qed.

Lemma splitText_chars_twice_label :
  get_attr (js "aria-label") (el_attrs (splitText (splitText (mk_el (js "p") [] [] [DText (js "a b")]) None) None))
  = Some [97%N; 160%N; 98%N].
Proof. vm_compute. reflexivity. Qed.

(** X8: [splitText] with a type other than ['chars'] and ['words']
    empties the element, appends nothing and sets [aria-label] to the
    trimmed text. *)
Theorem splitText_other_type (e : element) (ty : jsstr) :
  ty <> js "chars" -> ty <> js "words" ->
  let e' := splitText e (Some ty) in
  el_children e' = [] /\ text_of e' = [] /\
  get_attr (js "aria-label") (el_attrs e') = Some (trim (text_of e)).
Proof.
  intros H1 H2. cbv zeta. unfold splitText. cbv zeta.
  destruct (js_eqb ty (js "chars")) eqn:E1; [apply js_eqb_eq in E1; contradiction|].
  destruct (js_eqb ty (js "words")) eqn:E2; [apply js_eqb_eq in E2; contradiction|].
  cbn. split; [reflexivity|]. split; [reflexivity|]. apply get_set_attr.
Qed.

Lemma splitText_other_type_witness :
  let e := mk_el (js "p") [] [] [DText (js " Hello ")] in
  el_children (splitText e (Some (js "lines"))) = [] /\
  get_attr (js "aria-label") (el_attrs (splitText e (Some (js "lines")))) = Some (js "Hello").
Proof.
  cbv zeta.
  destruct (splitText_other_type (mk_el (js "p") [] [] [DText (js " Hello ")]) (js "lines")
              ltac:(discriminate) ltac:(discriminate)) as (A & _ & C).
  split; [exact A|]. rewrite C. vm_compute. reflexivity.
Defined.

Lemma existsb_js_in t ts : existsb (js_eqb t) ts = true <-> In t ts.
Proof.
  rewrite existsb_exists. split.
  - intros (x & Hx & E). apply js_eqb_eq in E. subst. exact Hx.
  - intro H. exists t. split; [exact H|apply js_eqb_refl].
Qed.

Lemma fold_add_nodup l : forall acc, NoDup (acc ++ l) -> fold_left add_token l acc = acc ++ l.
Proof.
  induction l as [|a l IH]; intros acc H; simpl; [rewrite app_nil_r; reflexivity|].
  unfold add_token at 2.
  destruct (existsb (js_eqb a) acc) eqn:E.
  - apply existsb_js_in in E. apply NoDup_remove_2 in H. exfalso. apply H.
    apply in_app_iff. left. exact E.
  - rewrite IH; [rewrite <- app_assoc; reflexivity|]. rewrite <- app_assoc. exact H.
Qed.

Lemma fold_add_good (P : jsstr -> Prop) l : forall acc,
  NoDup acc -> Forall P acc -> Forall P l ->
  NoDup (fold_left add_token l acc) /\ Forall P (fold_left add_token l acc).
Proof.
  induction l as [|a l IH]; intros acc N F Fl; simpl; [auto|].
  inversion Fl as [|? ? Pa Fl']; subst. apply IH; [| |exact Fl']; unfold add_token;
    destruct (existsb (js_eqb a) acc) eqn:E; auto.
  - apply NoDup_app; [exact N|constructor; [intros []|constructor]|].
    intros x Hx [<-|[]]. apply existsb_js_in in Hx. congruence.
  - apply Forall_app. auto.
Qed.

Lemma split_ascii_ws_nonempty s : split_ascii_ws s <> [].
Proof.
  induction s as [|a s IH]; simpl; [discriminate|].
  destruct (ascii_ws a); [discriminate|]. destruct (split_ascii_ws s); discriminate.
Qed.

Lemma split_ascii_ws_free w :
  forallb (fun c => negb (ascii_ws c)) w = true -> split_ascii_ws w = [w].
Proof.
  induction w as [|c w IH]; simpl; [reflexivity|].
  intro H. apply andb_true_iff in H as [H1 H2]. rewrite negb_true_iff in H1.
  rewrite H1, (IH H2). reflexivity.
Qed.

Lemma split_ascii_ws_app w c rest :
  forallb (fun c => negb (ascii_ws c)) w = true -> ascii_ws c = true ->
  split_ascii_ws (w ++ c :: rest) = w :: split_ascii_ws rest.
Proof.
  intros Hw Hc. induction w as [|a w IH]; simpl; [rewrite Hc; reflexivity|].
  simpl in Hw. apply andb_true_iff in Hw as [H1 H2]. rewrite negb_true_iff in H1.
  rewrite H1, (IH H2). reflexivity.
Qed.

Lemma split_join_tokens ts :
  ts <> [] -> Forall (fun t => forallb (fun c => negb (ascii_ws c)) t = true) ts ->
  split_ascii_ws (join_sp ts) = ts.
Proof.
  induction ts as [|w ts IH]; intros Hne F; [contradiction|].
  inversion F as [|? ? Fw Fts]; subst.
  destruct ts as [|w' ts'].
  - apply split_ascii_ws_free. exact Fw.
  - change (join_sp (w :: w' :: ts')) with (w ++ 32%N :: join_sp (w' :: ts')).
    rewrite (split_ascii_ws_app w 32 _ Fw eq_refl). f_equal.
    apply IH; [discriminate|exact Fts].
Qed.

Lemma token_list_join ts : good_tokens ts -> token_list (join_sp ts) = ts.
Proof.
  intros [N F]. unfold token_list. destruct ts as [|w ts']; [reflexivity|].
  rewrite split_join_tokens.
  - rewrite forallb_filter_id.
    + apply (fold_add_nodup _ []). exact N.
    + apply forallb_forall. intros x Hx. rewrite Forall_forall in F. destruct (F x Hx) as [Hx' _].
      destruct (js_eqb x []) eqn:E; [apply js_eqb_eq in E; contradiction|reflexivity].
  - discriminate.
  - eapply Forall_impl; [|exact F]. intros a [_ H]. exact H.
Qed.

Lemma token_list_good v : good_tokens (token_list v).
Proof.
  unfold token_list. apply fold_add_good; [constructor|constructor|].
  apply Forall_forall. intros t Ht. apply filter_In in Ht as [Hin Hne].
  split.
  - intro E. subst. discriminate.
  - clear Hne. revert t Hin. induction v as [|c v IH]; intros t Hin; simpl in Hin.
    + destruct Hin as [<-|[]]. reflexivity.
    + destruct (ascii_ws c) eqn:Ec.
      * destruct Hin as [<-|Hin]; [reflexivity|exact (IH t Hin)].
      * destruct (split_ascii_ws v) as [|x xs] eqn:Ev.
        -- destruct Hin as [<-|[]]. simpl. rewrite Ec. reflexivity.
        -- destruct Hin as [<-|Hin].
           ++ simpl. rewrite Ec. apply IH. left. reflexivity.
           ++ apply IH. right. exact Hin.
Qed.

Lemma class_list_good e : good_tokens (class_list e).
Proof.
  unfold class_list. destruct (get_attr _ _); [apply token_list_good|split; constructor].
Qed.

Lemma add_token_good ts t :
  good_tokens ts -> t <> [] -> forallb (fun c => negb (ascii_ws c)) t = true ->
  good_tokens (add_token ts t).
Proof.
  intros [N F] H1 H2. unfold add_token. destruct (existsb (js_eqb t) ts) eqn:E; [split; auto|].
  split.
  - apply NoDup_app; [exact N|constructor; [intros []|constructor]|].
    intros x Hx [<-|[]]. apply existsb_js_in in Hx. congruence.
  - apply Forall_app. split; [exact F|constructor; auto].
Qed.

Lemma add_token_in ts t : In t (add_token ts t).
Proof.
  unfold add_token. destruct (existsb (js_eqb t) ts) eqn:E.
  - apply existsb_js_in. exact E.
  - apply in_app_iff. right. left. reflexivity.
Qed.

Lemma add_token_present ts t : In t ts -> add_token ts t = ts.
Proof.
  intro H. unfold add_token. apply existsb_js_in in H. rewrite H. reflexivity.
Qed.

Lemma get_set_other k k' v l : js_eqb k k' = false -> get_attr k (set_attr k' v l) = get_attr k l.
Proof.
  intro D. induction l as [|[k1 v1] l IH]; simpl.
  - rewrite D. reflexivity.
  - destruct (js_eqb k' k1) eqn:E; simpl.
    + apply js_eqb_eq in E. subst k1. rewrite D. reflexivity.
    + destruct (js_eqb k k1); [reflexivity|exact IH].
Qed.

Lemma set_attr_same k v l : get_attr k l = Some v -> set_attr k v l = l.
Proof.
  induction l as [|[k1 v1] l IH]; simpl; [discriminate|].
  destruct (js_eqb k k1) eqn:E.
  - intro H. injection H as ->. apply js_eqb_eq in E. subst. reflexivity.
  - intro H. rewrite (IH H). reflexivity.
Qed.

Lemma with_attr_same k v e : get_attr k (el_attrs e) = Some v -> with_attr k v e = e.
Proof. intro H. unfold with_attr. rewrite (set_attr_same _ _ _ H). destruct e; reflexivity. Qed.

(** X9: [glitchText] is idempotent; it keeps the element's text, sets
    [data-text] to it, adds [glitch] to the class list and keeps every
    class already there. *)
Theorem glitchText_idempotent (e : element) :
  glitchText (glitchText e) = glitchText e /\
  text_of (glitchText e) = text_of e /\
  get_attr (js "data-text") (el_attrs (glitchText e)) = Some (text_of e) /\
  In (js "glitch") (class_list (glitchText e)) /\
  (forall t, In t (class_list e) -> In t (class_list (glitchText e))).
Proof.
  set (ts' := add_token (class_list e) (js "glitch")).
  assert (G : good_tokens ts') by (apply add_token_good; [apply class_list_good|discriminate|reflexivity]).
  assert (C : class_list (glitchText e) = ts').
  { unfold class_list, glitchText, class_add, with_attr. cbn [el_attrs].
    rewrite get_set_other by reflexivity. rewrite get_set_attr.
    apply token_list_join. exact G. }
  assert (T : text_of (glitchText e) = text_of e) by reflexivity.
  split; [|split; [exact T|split; [|split]]].
  - unfold glitchText at 1. unfold class_add. rewrite C.
    rewrite (add_token_present ts' (js "glitch") (add_token_in _ _)).
    rewrite (with_attr_same (js "class") (join_sp ts') (glitchText e)) by
      (unfold glitchText, class_add, with_attr; cbn [el_attrs];
       rewrite get_set_other by reflexivity; apply get_set_attr).
    apply with_attr_same. rewrite T. unfold glitchText, with_attr. cbn [el_attrs].
    apply get_set_attr.
  - unfold glitchText, with_attr. cbn [el_attrs]. apply get_set_attr.
  - rewrite C. apply add_token_in.
  - intros t Ht. rewrite C. unfold ts', add_token.
    destruct (existsb _ _); [exact Ht|apply in_app_iff; left; exact Ht].
Qed.

(** *** Typewriter *)

Lemma set_text_text s e : text_of (set_text s e) = s.
Proof. apply text_children_text. Qed.

Lemma set_text_twice s s' e : set_text s' (set_text s e) = set_text s' e.
Proof. reflexivity. Qed.

Lemma new_typewriter_el e sp dl cur :
  set_text [] (tw_el (new_typewriter e sp dl cur)) = tw_el (new_typewriter e sp dl cur).
Proof.
  unfold new_typewriter. cbv zeta. destruct (match cur with Some b => b | None => true end); reflexivity.
Qed.

Lemma char_at_firstn s k : (k < length s)%nat -> firstn k s ++ char_at s k = firstn (S k) s.
Proof.
  revert k. induction s as [|c s IH]; intros k H; simpl in H; [lia|].
  destruct k as [|k]; [reflexivity|].
  cbn [firstn]. rewrite <- app_comm_cons. f_equal.
  unfold char_at in *. cbn [nth_error]. apply IH. lia.
Qed.

Lemma tw_typing tw k :
  set_text [] (tw_el tw) = tw_el tw -> (k <= length (tw_text tw))%nat ->
  Nat.iter (S k) (tw_step tw) (type_start tw) =
    mk_tws (set_text (firstn k (tw_text tw)) (tw_el tw)) (TwTyping k) false.
Proof.
  intro E. induction k as [|k IH]; intro H.
  - cbn. rewrite E. reflexivity.
  - change (Nat.iter (S (S k)) (tw_step tw) (type_start tw))
      with (tw_step tw (Nat.iter (S k) (tw_step tw) (type_start tw))).
    rewrite IH by lia. unfold tw_step. cbn [tws_phase tws_el tws_resolved].
    replace (Nat.ltb k (length (tw_text tw))) with true by (symmetry; apply Nat.ltb_lt; lia).
    rewrite set_text_text, set_text_twice, char_at_firstn by lia. reflexivity.
Qed.

Lemma tw_done tw k :
  set_text [] (tw_el tw) = tw_el tw -> (length (tw_text tw) < k)%nat ->
  Nat.iter (S k) (tw_step tw) (type_start tw) =
    mk_tws (set_text (tw_text tw) (tw_el tw)) TwDone true.
Proof.
  intros E H. induction k as [|k IH]; [lia|].
  change (Nat.iter (S (S k)) (tw_step tw) (type_start tw))
    with (tw_step tw (Nat.iter (S k) (tw_step tw) (type_start tw))).
  destruct (Nat.eq_dec k (length (tw_text tw))) as [->|Ne].
  - rewrite (tw_typing tw _ E (Nat.le_refl _)). unfold tw_step. cbn [tws_phase tws_el].
    rewrite Nat.ltb_irrefl, firstn_all. reflexivity.
  - rewrite IH by lia. reflexivity.
Qed.

(** X10: the constructor of [Typewriter] stores the element's text and
    empties the element; after the delay callback and [k] interval
    callbacks of [type()], the element shows the first [k] code units and
    the promise is unresolved while [k] is at most the text's length;
    beyond it the element shows the whole text, the promise is resolved
    and later callbacks change nothing. *)
Theorem typewriter_progress (e : element) (speed delay : option Z) (cursor : option bool)
    (k : nat) :
  let tw := new_typewriter e speed delay cursor in
  let st := Nat.iter (S k) (tw_step tw) (type_start tw) in
  tw_text tw = text_of e /\ el_children (tw_el tw) = [] /\
  ((k <= length (text_of e))%nat ->
     text_of (tws_el st) = firstn k (text_of e) /\ tws_resolved st = false) /\
  ((length (text_of e) < k)%nat ->
     text_of (tws_el st) = text_of e /\ tws_resolved st = true /\
     tws_phase st = TwDone /\ tw_step tw st = st).
Proof.
  intros tw st. pose proof (new_typewriter_el e speed delay cursor) as E. fold tw in E.
  assert (Tt : tw_text tw = text_of e) by reflexivity.
  split; [exact Tt|]. split; [rewrite <- E; reflexivity|]. split.
  - intro H. subst st. rewrite (tw_typing tw k E) by (rewrite Tt; lia). cbn [tws_el tws_resolved].
    rewrite set_text_text, Tt. auto.
  - intro H. subst st. rewrite (tw_done tw k E) by (rewrite Tt; lia). cbn [tws_el tws_resolved tws_phase].
    rewrite set_text_text, Tt. auto.
Qed.

(** X11: the word-rotation branch of [initKineticText] does nothing
    without [data-words]; with it, the word list has one more entry than
    the attribute has commas, every word is trimmed, and a [WordRotator]
    is always constructed with the parsed interval, even for an empty
    attribute. *)
Theorem rotate_element_words (dw di : option jsstr) (w : world) :
  rotate_element None di w = Ok tt w /\
  (forall s, length (words_of (Some s)) = S (count_occ N.eq_dec s 44%N) /\
             (forall x, In x (words_of (Some s)) -> trim x = x) /\
             rotate_element (Some s) di w = construct (words_of (Some s)) (Some (interval_of di)) w).
Proof.
  split; [reflexivity|]. intro s. split; [|split].
  - unfold words_of. rewrite length_map. apply split_on_length_any.
  - unfold words_of. intros x Hx. apply in_map_iff in Hx. destruct Hx as [y [<- _]].
    apply trim_idem.
  - unfold rotate_element, init_rotate.
    replace (Nat.ltb 0 (length (words_of (Some s)))) with true; [reflexivity|].
    symmetry. apply Nat.ltb_lt. unfold words_of. rewrite length_map, split_on_length_any. lia.
Qed.

Lemma is_digit_uint u : forallb is_digit (uint_digits u) = true.
Proof. induction u; simpl; try exact IHu; reflexivity. Qed.

Lemma digits_prefix_app ds rest :
  forallb is_digit ds = true -> digits_prefix rest = [] -> digits_prefix (ds ++ rest) = ds.
Proof.
  intros H R. induction ds as [|d ds IH]; simpl in *; [exact R|].
  apply andb_true_iff in H. destruct H as [H1 H2]. rewrite H1, (IH H2). reflexivity.
Qed.

Lemma digits_value_acc u (a : nat) :
  fold_left (fun acc d => acc * 10 + Z.of_N (d - 48)) (uint_digits u) (Z.of_nat a) =
  Z.of_nat (Nat.of_uint_acc u a).
Proof.
  revert a. induction u; intro a; simpl; rewrite ?Nat.tail_mul_spec;
    try (rewrite <- IHu; f_equal; lia); reflexivity.
Qed.

Lemma digits_value_dec n : digits_value (dec n) = Z.of_nat n.
Proof.
  unfold digits_value, dec. change 0 with (Z.of_nat 0). rewrite digits_value_acc.
  fold (Nat.of_uint (Nat.to_uint n)). rewrite DecimalNat.Unsigned.of_to. reflexivity.
Qed.

Lemma dec_cons n : exists d ds, dec n = d :: ds /\ is_digit d = true.
Proof.
  pose proof (is_digit_uint (Nat.to_uint n)) as H. fold (dec n) in H.
  destruct (dec n) as [|d ds] eqn:E.
  - exfalso. pose proof (DecimalNat.Unsigned.of_to n) as Hof.
    unfold dec in E. destruct (Nat.to_uint n) eqn:U; simpl in E; try discriminate E.
    simpl in Hof. rewrite <- Hof in U. discriminate U.
  - exists d, ds. split; [reflexivity|]. simpl in H. apply andb_true_iff in H. apply H.
Qed.

(** X12: the rotation interval is 3000 without [data-interval]; for an
    attribute that starts with the decimal digits of a number [n] (below
    2^53), optionally after a minus sign, followed by a non-digit, it is
    [n] (or [-n]), and 3000 when [n] is 0. *)
Theorem interval_of_decimal (n : nat) (rest : jsstr) :
  digits_prefix rest = [] -> Z.of_nat n < 2 ^ 53 ->
  interval_of None = 3000 /\
  interval_of (Some (dec n ++ rest)) = (if (n =? 0)%nat then 3000 else Z.of_nat n) /\
  interval_of (Some (js "-" ++ dec n ++ rest)) = (if (n =? 0)%nat then 3000 else - Z.of_nat n).
Proof.
  intros R _. split; [reflexivity|].
  destruct (dec_cons n) as [d [ds [E Hd]]].
  assert (P : digits_prefix (dec n ++ rest) = dec n)
    by (apply digits_prefix_app; [apply is_digit_uint|exact R]).
  assert (W : is_ws d = false)
    by (unfold is_digit in Hd; apply andb_true_iff in Hd; destruct Hd as [H1 H2];
        apply N.leb_le in H1; apply N.leb_le in H2; unfold is_ws;
        repeat match goal with |- context [(?a =? ?b)%N] =>
          destruct (N.eqb_spec a b); [lia|] end;
        repeat match goal with |- context [(?a <=? ?b)%N] =>
          destruct (N.leb_spec a b) end; try reflexivity; lia).
  assert (S1 : (d =? 45)%N = false /\ (d =? 43)%N = false)
    by (unfold is_digit in Hd; apply andb_true_iff in Hd; destruct Hd as [H1 H2];
        apply N.leb_le in H1; split; apply N.eqb_neq; lia).
  destruct S1 as [S45 S43].
  split.
  - unfold interval_of, parseInt10. rewrite E. cbn [app drop_ws]. rewrite W, S45, S43.
    change (d :: ds ++ rest) with ((d :: ds) ++ rest). rewrite <- E, P, E. rewrite <- E, digits_value_dec.
    destruct (Nat.eqb_spec n 0) as [->|Ne]; [reflexivity|].
    replace (1 * Z.of_nat n =? 0) with false by (symmetry; apply Z.eqb_neq; lia). lia.
  - unfold interval_of, parseInt10. change (js "-") with [45%N]. cbn [app drop_ws].
    change (is_ws 45) with false. cbn [N.eqb Pos.eqb]. cbv iota beta zeta.
    rewrite P, E. rewrite <- E, digits_value_dec.
    destruct (Nat.eqb_spec n 0) as [->|Ne]; [reflexivity|].
    replace (-1 * Z.of_nat n =? 0) with false by (symmetry; apply Z.eqb_neq; lia). lia.
Qed.

Lemma interval_of_decimal_witness :
  digits_prefix (js "ms") = [] /\ Z.of_nat 250 < 2 ^ 53 /\
  interval_of (Some (dec 250 ++ js "ms")) = 250.
Proof.
  split; [reflexivity|]. split; [lia|].
  destruct (interval_of_decimal 250 (js "ms") eq_refl ltac:(lia)) as (_ & H & _).
  rewrite H. reflexivity.
Defined.
